(** * Persistent segment tree and branch tracker of [persistent.py]

    A shallow embedding of [PersistentSegmentTreeNode],
    [PersistentSegmentTree] and [FlightSearchBranchManager], followed by
    the properties of the versioned container that the specification
    states about them. *)

From Stdlib Require Import ZArith Lia.
From stdpp Require Import base numbers list strings gmap.

Local Open Scope Z_scope.

(** ** The fragment of the Python runtime the code relies on *)

(** The exceptions the modelled code can raise: none of them is raised
    by a [raise] statement of the source, all come from the interpreter
    (list subscripts, attribute access on [None], recursion depth). *)
Inductive exception := RecursionError | IndexError | AttributeError.

Inductive result (A : Type) :=
| Ok (a : A)
| Raise (e : exception).
Arguments Ok {A} a.
Arguments Raise {A} e.

#[global] Instance result_ret : MRet result := fun _ a => Ok a.
#[global] Instance result_bind : MBind result := fun _ _ k r =>
  match r with
  | Ok a => k a
  | Raise e => Raise e
  end.

(** Python normalises a list subscript: a negative index counts from the
    end, and what is still outside [0, n) raises [IndexError]. *)
Definition py_subscript (n i : Z) : result nat :=
  let j := if i <? 0 then i + n else i in
  if (0 <=? j) && (j <? n) then Ok (Z.to_nat j) else Raise IndexError.

(** [xs[i]] *)
Definition list_getitem {A} (xs : list A) (i : Z) : result A :=
  j ← py_subscript (Z.of_nat (length xs)) i;
  match xs !! j with
  | Some x => Ok x
  | None => Raise IndexError
  end.

(** [xs[i] = x] *)
Definition list_setitem {A} (xs : list A) (i : Z) (x : A) : result (list A) :=
  j ← py_subscript (Z.of_nat (length xs)) i;
  Ok (<[j := x]> xs).

(** ** The tree *)

Section Model.
Context {V P : Type}.

(** A Python value of type [Any]: [None] is Python's [None], which is
    also what a leaf holds before any update reaches it. *)
Local Abbreviation value := (option V).

(** [PersistentSegmentTreeNode]. The source calls the constructor in two
    shapes only, without children ([Leaf], both children [None]) and with
    two nodes as children ([Inner]); no field is ever assigned after
    construction. *)
Inductive PersistentSegmentTreeNode :=
| Leaf (left right : Z) (value : value)
| Inner (left right : Z) (value : value)
        (left_child right_child : PersistentSegmentTreeNode).

Definition node_left (node : PersistentSegmentTreeNode) : Z :=
  match node with Leaf l _ _ | Inner l _ _ _ _ => l end.
Definition node_right (node : PersistentSegmentTreeNode) : Z :=
  match node with Leaf _ r _ | Inner _ r _ _ _ => r end.
Definition node_value (node : PersistentSegmentTreeNode) : value :=
  match node with Leaf _ _ v | Inner _ _ v _ _ => v end.

(** The recursion limit. Where a call is made, [depth] is the number of
    nested calls the interpreter still allows: the recursion limit less
    the depth of the caller. A call of a function takes one level while
    it runs, and with none left it raises [RecursionError]. Creating an
    object takes two levels while [__init__] runs, one for the call of
    the class and one for the frame of [__init__]: the interpreter
    (CPython 3.11) raises if no level is left when the class is called,
    and counts both against the calls [__init__] makes. Calls of
    built-in methods ([append], [len], the list subscript) take none. *)

(** [PersistentSegmentTreeNode(left, right, value, left_child, right_child)];
    its [__init__] calls nothing. [children] is [None] where the source
    passes no children. *)
Definition PersistentSegmentTreeNode__init__ (depth : nat) (l r : Z) (v : value)
    (children : option (PersistentSegmentTreeNode * PersistentSegmentTreeNode))
  : result PersistentSegmentTreeNode :=
  match depth with
  | O => Raise RecursionError
  | S _ =>
      Ok match children with
         | None => Leaf l r v
         | Some (left_child, right_child) => Inner l r v left_child right_child
         end
  end.

(** [_build] *)
Fixpoint _build (depth : nat) (l r : Z) : result PersistentSegmentTreeNode :=
  match depth with
  | O => Raise RecursionError
  | S depth =>
      if l =? r then PersistentSegmentTreeNode__init__ depth l r None None
      else
        let m := (l + r) `div` 2 in
        left_child ← _build depth l m;
        right_child ← _build depth (m + 1) r;
        PersistentSegmentTreeNode__init__ depth l r None
          (Some (left_child, right_child))
  end.

(** [_update]. A node without children whose range is not a single index
    would pass [None] to the recursive call, whose first attribute access
    raises [AttributeError]. The recursion follows the tree: called where
    the constructor was, [update] nests no deeper than the construction
    of the tree did ([update_sim] below, on the embedding with the heap,
    which counts the calls), so it is given no [depth] here. *)
Fixpoint _update (node : PersistentSegmentTreeNode) (idx : Z) (v : value)
  : result PersistentSegmentTreeNode :=
  if node_left node =? node_right node then
    Ok (Leaf (node_left node) (node_right node) v)
  else
    let m := (node_left node + node_right node) `div` 2 in
    if idx <=? m then
      match node with
      | Leaf _ _ _ => Raise AttributeError
      | Inner l r v0 lc rc =>
          left_child ← _update lc idx v; Ok (Inner l r v0 left_child rc)
      end
    else
      match node with
      | Leaf _ _ _ => Raise AttributeError
      | Inner l r v0 lc rc =>
          right_child ← _update rc idx v; Ok (Inner l r v0 lc right_child)
      end.

(** [_query] *)
Fixpoint _query (node : PersistentSegmentTreeNode) (l r : Z)
  : result (list value) :=
  let children :=
    match node with
    | Leaf _ _ _ => Raise AttributeError
    | Inner _ _ _ lc rc =>
        xs ← _query lc l r; ys ← _query rc l r; Ok (xs ++ ys)
    end in
  if (node_right node <? l) || (node_left node >? r) then Ok []
  else if (l <=? node_left node) && (node_right node <=? r) then
    if node_left node =? node_right node then Ok [node_value node]
    else children
  else children.

(** [PersistentSegmentTree] *)
Record PersistentSegmentTree := {
  size : Z;
  versions : list PersistentSegmentTreeNode
}.

(** [PersistentSegmentTree(size)]: the call of the class, and
    [__init__]. *)
Definition PersistentSegmentTree__init__ (depth : nat) (size : Z)
  : result PersistentSegmentTree :=
  match depth with
  | S (S depth) =>
      root ← _build depth 0 (size - 1);
      Ok {| size := size; versions := [] ++ [root] |}
  | _ => Raise RecursionError
  end.

(** [update]. The object survives an exception, so the state after the
    call is returned next to the outcome. *)
Definition update (self : PersistentSegmentTree) (version idx : Z) (v : value)
  : PersistentSegmentTree * result Z :=
  match root ← list_getitem (versions self) version; _update root idx v with
  | Raise e => (self, Raise e)
  | Ok new_root =>
      let self' := {| size := size self;
                      versions := versions self ++ [new_root] |} in
      (self', Ok (Z.of_nat (length (versions self')) - 1))
  end.

(** [query] *)
Definition query (self : PersistentSegmentTree) (version l r : Z)
  : result (list value) :=
  root ← list_getitem (versions self) version; _query root l r.

(** ** The branch tracker *)

(** The dictionary [{'params': params, 'result': result}]. *)
Record branch := { params : P; result_of : value }.

(** [FlightSearchBranchManager] *)
Record FlightSearchBranchManager := {
  tree : PersistentSegmentTree;
  branch_params : list (option branch);
  current_version : Z;
  next_idx : Z
}.

(** [FlightSearchBranchManager(max_branches)]: the call of the class,
    and [__init__]. *)
Definition FlightSearchBranchManager__init__ (depth : nat) (max_branches : Z)
  : result FlightSearchBranchManager :=
  match depth with
  | S (S depth) =>
      t ← PersistentSegmentTree__init__ depth max_branches;
      Ok {| tree := t;
            branch_params := replicate (Z.to_nat max_branches) None;
            current_version := 0;
            next_idx := 0 |}
  | _ => Raise RecursionError
  end.

(** [add_branch]; [from_version = None] is the default argument. *)
Definition add_branch (self : FlightSearchBranchManager) (p : P) (res : value)
    (from_version : option Z) : FlightSearchBranchManager * result Z :=
  let idx := next_idx self in
  match list_setitem (branch_params self) idx
          (Some {| params := p; result_of := res |}) with
  | Raise e => (self, Raise e)
  | Ok slots =>
      let from_version :=
        match from_version with
        | None => current_version self
        | Some v => v
        end in
      match update (tree self) from_version idx res with
      | (t, Raise e) =>
          ({| tree := t; branch_params := slots;
              current_version := current_version self;
              next_idx := next_idx self |}, Raise e)
      | (t, Ok new_version) =>
          ({| tree := t; branch_params := slots;
              current_version := new_version;
              next_idx := next_idx self + 1 |}, Ok new_version)
      end
  end.

(** [get_branch_result] *)
Definition get_branch_result (self : FlightSearchBranchManager)
    (version idx : Z) : result value :=
  xs ← query (tree self) version idx idx; list_getitem xs 0.

(** [get_all_results] *)
Definition get_all_results (self : FlightSearchBranchManager) (version : Z)
  : result (list value) :=
  query (tree self) version 0 (next_idx self - 1).

End Model.

Arguments PersistentSegmentTreeNode : clear implicits.
Arguments PersistentSegmentTree : clear implicits.
Arguments branch : clear implicits.
Arguments FlightSearchBranchManager : clear implicits.

(** ** The tree as objects on the heap

    The definitions above treat a node as a value, which is what the
    source makes of it: no field of a node is assigned after
    construction. Claims about which node objects two versions have in
    common need the objects themselves, so the tree is embedded a second
    time with the interpreter's heap made explicit: a node is a cell at
    an address, a child is a reference to a cell or [None], and the
    constructor allocates a fresh cell. The facts below relate the two
    embeddings. *)

Module Heap.
Section Model.
Context {V : Type}.

(** The fields of one [PersistentSegmentTreeNode] object. *)
Record cell := Cell {
  left : Z;
  right : Z;
  value : option V;
  left_child : option nat;
  right_child : option nat
}.

(** Allocation: the new object gets the next free address, and no
    existing cell changes. *)
Definition new_node (h : list cell) (c : cell) : nat * list cell :=
  (length h, h ++ [c]).

(** [PersistentSegmentTreeNode(...)], refused with no level of [depth]
    left, as above. *)
Definition PersistentSegmentTreeNode__init__ (depth : nat) (h : list cell)
    (c : cell) : result (nat * list cell) :=
  match depth with
  | O => Raise RecursionError
  | S _ => Ok (new_node h c)
  end.

(** Attribute access through a reference; on [None] it raises
    [AttributeError]. (No reference of the program dangles; an address
    without a cell is given the same outcome.) *)
Definition deref (h : list cell) (ref : option nat) : result cell :=
  match ref with
  | None => Raise AttributeError
  | Some a =>
      match h !! a with
      | Some c => Ok c
      | None => Raise AttributeError
      end
  end.

(** [_build] *)
Fixpoint _build (depth : nat) (l r : Z) (h : list cell)
  : result (nat * list cell) :=
  match depth with
  | O => Raise RecursionError
  | S depth =>
      if l =? r then
        PersistentSegmentTreeNode__init__ depth h (Cell l r None None None)
      else
        let m := (l + r) `div` 2 in
        '(left_child, h) ← _build depth l m h;
        '(right_child, h) ← _build depth (m + 1) r h;
        PersistentSegmentTreeNode__init__ depth h
          (Cell l r None (Some left_child) (Some right_child))
  end.

(** [_update] *)
Fixpoint _update (depth : nat) (node : option nat) (idx : Z) (v : option V)
    (h : list cell) : result (nat * list cell) :=
  match depth with
  | O => Raise RecursionError
  | S depth =>
      c ← deref h node;
      if left c =? right c then
        PersistentSegmentTreeNode__init__ depth h
          (Cell (left c) (right c) v None None)
      else
        let m := (left c + right c) `div` 2 in
        if idx <=? m then
          '(new_child, h) ← _update depth (left_child c) idx v h;
          c ← deref h node;
          PersistentSegmentTreeNode__init__ depth h
            (Cell (left c) (right c) (value c) (Some new_child) (right_child c))
        else
          '(new_child, h) ← _update depth (right_child c) idx v h;
          c ← deref h node;
          PersistentSegmentTreeNode__init__ depth h
            (Cell (left c) (right c) (value c) (left_child c) (Some new_child))
  end.

(** [_query] *)
Fixpoint _query (depth : nat) (node : option nat) (l r : Z) (h : list cell)
  : result (list (option V)) :=
  match depth with
  | O => Raise RecursionError
  | S depth =>
      c ← deref h node;
      let children :=
        xs ← _query depth (left_child c) l r h;
        ys ← _query depth (right_child c) l r h;
        Ok (xs ++ ys) in
      if (right c <? l) || (left c >? r) then Ok []
      else if (l <=? left c) && (right c <=? r) then
        if left c =? right c then Ok [value c] else children
      else children
  end.

(** [PersistentSegmentTree]: the version list holds references. *)
Record PersistentSegmentTree := {
  size : Z;
  versions : list nat
}.

(** [PersistentSegmentTree(size)]: the call of the class, and
    [__init__]. *)
Definition __init__ (depth : nat) (size : Z) (h : list cell)
  : result (list cell * PersistentSegmentTree) :=
  match depth with
  | S (S depth) =>
      '(root, h) ← _build depth 0 (size - 1) h;
      Ok (h, {| size := size; versions := [] ++ [root] |})
  | _ => Raise RecursionError
  end.

(** [update] *)
Definition update (depth : nat) (s : list cell * PersistentSegmentTree)
    (version idx : Z) (v : option V)
  : (list cell * PersistentSegmentTree) * result Z :=
  let '(h, self) := s in
  match depth with
  | O => (s, Raise RecursionError)
  | S depth =>
      match root ← list_getitem (versions self) version;
            _update depth (Some root) idx v h with
      | Raise e => (s, Raise e)
      | Ok (new_root, h) =>
          let self' := {| size := size self;
                          versions := versions self ++ [new_root] |} in
          ((h, self'), Ok (Z.of_nat (length (versions self')) - 1))
      end
  end.

(** [query] *)
Definition query (depth : nat) (s : list cell * PersistentSegmentTree)
    (version l r : Z) : result (list (option V)) :=
  let '(h, self) := s in
  match depth with
  | O => Raise RecursionError
  | S depth =>
      root ← list_getitem (versions self) version;
      _query depth (Some root) l r h
  end.

(** [reach h a b]: the object at [b] is the one at [a] or one of its
    descendants. *)
Inductive reach (h : list cell) : nat → nat → Prop :=
| reach_self a : reach h a a
| reach_left a c b d :
    h !! a = Some c → left_child c = Some b → reach h b d → reach h a d
| reach_right a c b d :
    h !! a = Some c → right_child c = Some b → reach h b d → reach h a d.

(** The states a program can reach with recursion limit [depth]: a tree
    of size [n] constructed on some heap, then updated any number of
    times. *)
Inductive stored (depth : nat) (n : Z)
  : list cell * PersistentSegmentTree → Prop :=
| stored_init h s : __init__ depth n h = Ok s → stored depth n s
| stored_update s version idx v :
    stored depth n s → stored depth n (update depth s version idx v).1.

End Model.
Arguments cell : clear implicits.
Arguments PersistentSegmentTree : clear implicits.
End Heap.

(** ** Reading a tree as an indexed collection *)

Section Views.
Context {V : Type}.
Local Abbreviation value := (option V).
Local Abbreviation Node := (PersistentSegmentTreeNode V).
Local Abbreviation Tree := (PersistentSegmentTree V).

(** The leaves of a tree from left to right, each with the index it
    covers. *)
Fixpoint leaves (node : Node) : list (Z * value) :=
  match node with
  | Leaf l _ v => [(l, v)]
  | Inner _ _ _ lc rc => leaves lc ++ leaves rc
  end.

(** The partition of [l, r] that [_build] lays out: single indices at the
    leaves, a split at the midpoint everywhere else. *)
Fixpoint shaped (l r : Z) (node : Node) : Prop :=
  match node with
  | Leaf nl nr _ => nl = l ∧ nr = r ∧ l = r
  | Inner nl nr _ lc rc =>
      nl = l ∧ nr = r ∧ l < r ∧
      shaped l ((l + r) `div` 2) lc ∧ shaped ((l + r) `div` 2 + 1) r rc
  end.

(** The index lies in the query range. *)
Definition within (l r : Z) (p : Z * value) : Prop := l ≤ p.1 ≤ r.

#[global] Instance within_dec l r p : Decision (within l r p).
Proof. unfold within. apply _. Defined.

(** The leaf an update for [idx] ends at in a tree over [l, r]. *)
Definition target (l r idx : Z) : Z := l `max` (idx `min` r).

(** The number of nodes [_update] visits on its way down. *)
Fixpoint path_length (node : Node) (idx : Z) : nat :=
  match node with
  | Leaf _ _ _ => 1
  | Inner l r _ lc rc =>
      if l =? r then 1
      else if idx <=? (l + r) `div` 2 then S (path_length lc idx)
      else S (path_length rc idx)
  end.

(** A version id that names an entry of the version list. *)
Definition valid_version (t : Tree) (version : Z) : Prop :=
  0 ≤ version < Z.of_nat (length (versions t)).

(** What every tree of size [n] satisfies: each version is a tree over
    [0, n - 1] of the shape [_build] lays out. *)
Definition tree_ok (n : Z) (t : Tree) : Prop :=
  size t = n ∧ 1 ≤ n ∧ versions t ≠ [] ∧ Forall (shaped 0 (n - 1)) (versions t).

(** The trees a program can hold: constructed with size [n], then
    updated any number of times. *)
Inductive built (n : Z) : Tree → Prop :=
| built_init depth t :
    PersistentSegmentTree__init__ depth n = Ok t → built n t
| built_update t version idx v :
    built n t → built n (update t version idx v).1.

(** [later t t']: [t'] is [t] after any number of further updates. *)
Inductive later (t : Tree) : Tree → Prop :=
| later_now : later t t
| later_update t' version idx v :
    later t t' → later t (update t' version idx v).1.

(** The number of nested calls a traversal of the tree needs. *)
Fixpoint height (node : Node) : nat :=
  match node with
  | Leaf _ _ _ => 1
  | Inner _ _ _ lc rc => S (height lc `max` height rc)
  end.

(** [repr h a node]: the object at address [a] of the heap [h], read
    with everything below it, is the value [node]. *)
Fixpoint repr (h : list (Heap.cell V)) (a : nat) (node : Node) : Prop :=
  match node with
  | Leaf l r v => h !! a = Some (Heap.Cell l r v None None)
  | Inner l r v lc rc =>
      ∃ al ar, h !! a = Some (Heap.Cell l r v (Some al) (Some ar)) ∧
               repr h al lc ∧ repr h ar rc
  end.

(** A heap with a tree on it stands for a tree of values: each root
    reference stands for the root of the same version. *)
Definition stands_for (s : list (Heap.cell V) * Heap.PersistentSegmentTree)
    (t : Tree) : Prop :=
  Heap.size s.2 = size t ∧ Forall2 (repr s.1) (Heap.versions s.2) (versions t).

(** The state [s], reached with recursion limit [depth], stands for the
    tree [t] of size [n], none of whose versions is deeper than the
    constructor could build within the limit: two levels go to the tree
    object and one to the node made in the deepest [_build]. *)
Definition heap_inv (depth : nat) (n : Z)
    (s : list (Heap.cell V) * Heap.PersistentSegmentTree) (t : Tree) : Prop :=
  built n t ∧ stands_for s t ∧
  Forall (λ node, (height node + 3 ≤ depth)%nat) (versions t).

End Views.

Section Tracker.
Context {V P : Type}.
Local Abbreviation Manager := (FlightSearchBranchManager V P).

(** The version [add_branch] forks from. *)
Definition parent_version (m : Manager) (from_version : option Z) : Z :=
  match from_version with
  | None => current_version m
  | Some v => v
  end.

(** What every tracker with [max_branches] slots satisfies: one version
    per allocated slot after version 0, the cursor on the newest version,
    and no version with a value in a slot that is not allocated yet. *)
Definition manager_ok (max_branches : Z) (m : Manager) : Prop :=
  tree_ok max_branches (tree m) ∧
  length (branch_params m) = Z.to_nat max_branches ∧
  0 ≤ next_idx m ≤ max_branches ∧
  Z.of_nat (length (versions (tree m))) = next_idx m + 1 ∧
  current_version m = next_idx m ∧
  Forall (λ root, ∀ p, p ∈ leaves root → next_idx m ≤ p.1 → p.2 = None)
         (versions (tree m)).

(** The trackers a program can hold. *)
Inductive tracking (max_branches : Z) : Manager → Prop :=
| tracking_init depth m :
    FlightSearchBranchManager__init__ depth max_branches = Ok m →
    tracking max_branches m
| tracking_add m p res from_version :
    tracking max_branches m →
    tracking max_branches (add_branch m p res from_version).1.

End Tracker.

(** ** Concrete trees and trackers *)

(** The tree [PersistentSegmentTree(4)] and the two updates of the
    specification's first scenario. *)
Definition tree4 : PersistentSegmentTree string :=
  {| size := 4;
     versions := [Inner 0 3 None
                    (Inner 0 1 None (Leaf 0 0 None) (Leaf 1 1 None))
                    (Inner 2 3 None (Leaf 2 2 None) (Leaf 3 3 None))] |}.
Definition tree4_v1 : PersistentSegmentTree string :=
  (update tree4 0 0 (Some "A"%string)).1.
Definition tree4_v2 : PersistentSegmentTree string :=
  (update tree4_v1 1 2 (Some "B"%string)).1.

(** The tree [PersistentSegmentTree(2)]. *)
Definition tree2 : PersistentSegmentTree string :=
  {| size := 2;
     versions := [Inner 0 1 None (Leaf 0 0 None) (Leaf 1 1 None)] |}.

(** The tracker [FlightSearchBranchManager(2)], with the origin as
    parameters and the price as result, and the calls of the
    specification's second scenario. *)
Definition tracker2 : FlightSearchBranchManager Z string :=
  {| tree := {| size := 2;
                versions := [Inner 0 1 None (Leaf 0 0 None) (Leaf 1 1 None)] |};
     branch_params := [None; None];
     current_version := 0;
     next_idx := 0 |}.
Definition tracker2_bos : FlightSearchBranchManager Z string :=
  (add_branch tracker2 "BOS"%string (Some 100) None).1.
Definition tracker2_fork : FlightSearchBranchManager Z string :=
  (add_branch tracker2_bos "NYC"%string (Some 200) (Some 0)).1.
Definition tracker2_next : FlightSearchBranchManager Z string :=
  (add_branch tracker2_bos "NYC"%string (Some 200) None).1.

(** The heap after [PersistentSegmentTree(3)] on an empty heap: the
    leaves 0 and 1, their parent, the leaf 2 and the root. *)
Definition heap3 : list (Heap.cell string) :=
  [Heap.Cell 0 0 None None None;
   Heap.Cell 1 1 None None None;
   Heap.Cell 0 1 None (Some 0%nat) (Some 1%nat);
   Heap.Cell 2 2 None None None;
   Heap.Cell 0 2 None (Some 2%nat) (Some 3%nat)].
Definition stored3 : Heap.PersistentSegmentTree :=
  {| Heap.size := 3; Heap.versions := [4%nat] |}.

(** ** The caller of the tracker

    [wrap_flight_tool] wraps a tool of the agent so that every call is
    recorded in the module's tracker [flight_branch_manager]. *)

Section Wrapper.
Context {A V : Type}.

(** The names [wrapped] gives to positional arguments. *)
Definition param_names : list string :=
  ["origin"; "destination"; "departure_date"; "return_date"; "adults"]%string.

(** The dictionary [params] that [wrapped] builds: the positional
    arguments under their names, as far as there are both, then
    [params.update(kwargs)]. *)
Definition collect_params (args : list A) (kwargs : gmap string A)
  : gmap string A :=
  let params : gmap string A := ∅ in
  let params :=
    match args with
    | [] => params
    | _ =>
        foldl (λ params '(i, name),
                 if bool_decide (i < length args)%nat then
                   match args !! i with
                   | Some a => <[name := a]> params
                   | None => params
                   end
                 else params)
              params (imap pair param_names)
    end in
  kwargs ∪ params.

(** [wrapped], called on the tracker [manager]. [tool] is the outcome of
    the awaited call of the original tool with the same arguments: the
    value it returns or the exception it raises, which passes through. *)
Definition wrapped (manager : FlightSearchBranchManager V (gmap string A))
    (args : list A) (kwargs : gmap string A) (tool : result (option V))
  : FlightSearchBranchManager V (gmap string A) * result (option V) :=
  let params := collect_params args kwargs in
  match tool with
  | Raise e => (manager, Raise e)
  | Ok res =>
      match add_branch manager params res None with
      | (manager, Raise e) => (manager, Raise e)
      | (manager, Ok _) => (manager, Ok res)
      end
  end.

(** A run of the agent: the wrapped tool called once per element, each
    with its arguments and the outcome of the original tool. *)
Fixpoint session (manager : FlightSearchBranchManager V (gmap string A))
    (calls : list (list A * gmap string A * result (option V)))
  : FlightSearchBranchManager V (gmap string A) * list (result (option V)) :=
  match calls with
  | [] => (manager, [])
  | (args, kwargs, tool) :: calls =>
      let '(manager, out) := wrapped manager args kwargs tool in
      let '(manager, outs) := session manager calls in
      (manager, out :: outs)
  end.

End Wrapper.

(** ** Further views of the tree and the tracker *)

Section MoreViews.
Context {V P : Type}.
Local Abbreviation value := (option V).
Local Abbreviation Node := (PersistentSegmentTreeNode V).
Local Abbreviation Tree := (PersistentSegmentTree V).
Local Abbreviation Manager := (FlightSearchBranchManager V P).

(** The tree without what its leaves hold. *)
Fixpoint erase (node : Node) : Node :=
  match node with
  | Leaf l r _ => Leaf l r None
  | Inner l r v lc rc => Inner l r v (erase lc) (erase rc)
  end.

(** The tree after a list of updates, each given as version, index and
    value, whatever their outcome. *)
Definition updates (t : Tree) (ops : list (Z * Z * value)) : Tree :=
  foldl (λ t '(version, idx, v), (update t version idx v).1) t ops.

(** The same on the heap. *)
Definition heap_updates (depth : nat)
    (s : list (Heap.cell V) * Heap.PersistentSegmentTree)
    (ops : list (Z * Z * value))
  : list (Heap.cell V) * Heap.PersistentSegmentTree :=
  foldl (λ s '(version, idx, v), (Heap.update depth s version idx v).1) s ops.

(** The trackers whose every branch was added with the default
    [from_version], as [wrapped] does. *)
Inductive linear (max_branches : Z) : Manager → Prop :=
| linear_init depth m :
    FlightSearchBranchManager__init__ depth max_branches = Ok m →
    linear max_branches m
| linear_add m p res :
    linear max_branches m → linear max_branches (add_branch m p res None).1.

(** The results in the records of the allocated slots, in slot order. *)
Definition recorded_results (m : Manager) : list value :=
  (λ slot : option (branch V P), slot ≫= result_of)
    <$> take (Z.to_nat (next_idx m)) (branch_params m).

End MoreViews.

(** ** The tools of [server.py]

    The tools fetch a token and data over HTTP and work on the JSON
    documents that come back. What the network answers is an input of
    the model: each request is given by its outcome, the parsed body or
    the [requests.exceptions.RequestException] the code catches. *)

Module Server.

(** The exceptions the modelled code can raise on a JSON document. *)
Inductive exception :=
| KeyError (key : string)
| TypeError
| AttributeError.

Inductive outcome (A : Type) :=
| Return (a : A)
| Raise (e : exception).
Arguments Return {A} a.
Arguments Raise {A} e.

#[global] Instance outcome_ret : MRet outcome := fun _ a => Return a.
#[global] Instance outcome_bind : MBind outcome := fun _ _ k r =>
  match r with
  | Return a => k a
  | Raise e => Raise e
  end.

Section Model.

(** The numbers of a JSON document, Python [int] or [float], with
    their truth value ([x != 0]). *)
Variable number : Type.
Variable number_truth : number → bool.

(** What [response.json()] returns. A Python [str] is kept as the bytes
    of its text. *)
#[warnings="-register-all"]
Inductive json :=
| JNull
| JBool (b : bool)
| JNumber (n : number)
| JString (s : string)
| JArray (xs : list json)
| JObject (d : gmap string json).

(** [s[:n]] on a [str], which counts characters, not bytes. *)
Variable str_slice : nat → string → string.

(** What [d[:n]] raises on a [dict]: [TypeError] (a slice is not
    hashable) up to Python 3.11, [KeyError] from Python 3.12. *)
Variable dict_slice_error : exception.

(** [json.dumps(x, indent=2)] *)
Variable dumps : json → string.

(** [key in x], for a [str] key *)
Definition contains (key : string) (x : json) : outcome bool :=
  match x with
  | JObject d => Return (bool_decide (is_Some (d !! key)))
  | JArray xs =>
      Return (existsb (λ e, match e with
                            | JString s => bool_decide (s = key)
                            | _ => false
                            end) xs)
  | JString s => Return (bool_decide (is_Some (String.index 0 key s)))
  | JNull | JBool _ | JNumber _ => Raise TypeError
  end.

(** [x[key]], for a [str] key *)
Definition getitem (x : json) (key : string) : outcome json :=
  match x with
  | JObject d =>
      match d !! key with
      | Some v => Return v
      | None => Raise (KeyError key)
      end
  | _ => Raise TypeError
  end.

(** [x.get(key, default)] *)
Definition get (x : json) (key : string) (default : json) : outcome json :=
  match x with
  | JObject d =>
      match d !! key with
      | Some v => Return v
      | None => Return default
      end
  | _ => Raise AttributeError
  end.

(** [bool(x)] *)
Definition truth (x : json) : bool :=
  match x with
  | JNull => false
  | JBool b => b
  | JNumber n => number_truth n
  | JString s => negb (bool_decide (s = ""%string))
  | JArray xs => match xs with [] => false | _ => true end
  | JObject d => match map_to_list d with [] => false | _ => true end
  end.

(** [x[:n]] *)
Definition slice (n : nat) (x : json) : outcome json :=
  match x with
  | JArray xs => Return (JArray (take n xs))
  | JString s => Return (JString (str_slice n s))
  | JObject _ => Raise dict_slice_error
  | JNull | JBool _ | JNumber _ => Raise TypeError
  end.

(** The values [for entry in x] runs through; for a [dict] these are
    its keys. *)
Definition iterate (x : json) : outcome (list json) :=
  match x with
  | JArray xs => Return xs
  | JString s =>
      Return ((λ c, JString (String c EmptyString)) <$> String.list_ascii_of_string s)
  | JObject d => Return (JString <$> (map_to_list d).*1)
  | JNull | JBool _ | JNumber _ => Raise TypeError
  end.

(** The outcome of [requests.post] or [requests.get] followed by
    [raise_for_status()] and [json()]. *)
Inductive response :=
| Body (body : json)
| RequestException (message : string).

(** [get_access_token] *)
Definition get_access_token (post : response) : outcome json :=
  match post with
  | Body token_data =>
      access_token ← get token_data "access_token" JNull;
      expires_in ← get token_data "expires_in" JNull;
      Return (JObject {[ "access_token"%string := access_token;
                         "expires_in"%string := expires_in ]})
  | RequestException e =>
      Return (JObject {[ "error"%string :=
                           JString ("Error getting token: " +:+ e) ]})
  end.

(** [search_hotels_by_city] *)
Definition search_hotels_by_city (request : response) : outcome json :=
  match request with
  | Body body => Return body
  | RequestException e =>
      Return (JObject {[ "error"%string :=
                           JString ("Error searching for hotels: " +:+ e) ]})
  end.

(** [get_hotel_offers]; [",".join(hotel_ids)] takes [str] items only. *)
Definition get_hotel_offers (hotel_ids : list json) (request : response)
  : outcome json :=
  if forallb (λ x, match x with JString _ => true | _ => false end) hotel_ids
  then
    match request with
    | Body body => Return body
    | RequestException e =>
        Return (JObject {[ "error"%string :=
                             JString ("Error getting hotel offers: " +:+ e) ]})
    end
  else Raise TypeError.

(** [search_pois] *)
Definition search_pois (request : response) : outcome json :=
  match request with
  | Body body => Return body
  | RequestException e =>
      Return (JObject {[ "error"%string :=
                           JString ("Error getting points of interest: " +:+ e) ]})
  end.

(** What [get_pois] returns: a set display [{a, b}], which takes
    hashable items only, or the text of [json.dumps]. *)
Inductive pois_result :=
| SetOf (a b : json)
| Text (s : string).

Definition set_of (a b : json) : outcome pois_result :=
  match b with
  | JArray _ | JObject _ => Raise TypeError
  | _ => Return (SetOf a b)
  end.

(** [get_pois] *)
Definition get_pois (token_request pois_request : response)
  : outcome pois_result :=
  token_res ← get_access_token token_request;
  failed ← contains "error" token_res;
  if (failed : bool) then
    message ← getitem token_res "error";
    set_of (JString "error") message
  else
    access_token ← getitem token_res "access_token";
    pois ← search_pois pois_request;
    failed ← contains "error" pois;
    if (failed : bool) then
      message ← getitem token_res "error";
      set_of (JString "error") message
    else
      data ← get pois "data" (JArray []);
      if negb (truth data) then
        set_of (JString "error")
          (JString "No points of interest were found near the desired coordinates")
      else
        first ← slice 4 data;
        Return (Text (dumps first)).

(** The loop of [tool_search_hotels_by_city] over [hotels_data[:5]]. *)
Fixpoint hotel_ids (entries : list json) (first_five_ids : list json)
  : outcome (list json) :=
  match entries with
  | [] => Return first_five_ids
  | entry :: entries =>
      hotel_id ← get entry "hotelId" JNull;
      hotel_ids entries
        (if truth hotel_id then first_five_ids ++ [hotel_id] else first_five_ids)
  end.

(** [tool_search_hotels_by_city]; [offers_request] is the outcome of the
    offers request for the ids it is made with. *)
Definition tool_search_hotels_by_city (token_request hotels_request : response)
    (offers_request : list json → response) : outcome json :=
  token_info ← get_access_token token_request;
  failed ← contains "error" token_info;
  if (failed : bool) then
    message ← getitem token_info "error";
    Return (JObject {[ "error"%string := message ]})
  else
    access_token ← getitem token_info "access_token";
    hotels_response ← search_hotels_by_city hotels_request;
    failed ← contains "error" hotels_response;
    if (failed : bool) then
      message ← getitem hotels_response "error";
      Return (JObject {[ "error"%string := message ]})
    else
      hotels_data ← get hotels_response "data" (JArray []);
      first ← slice 5 hotels_data;
      entries ← iterate first;
      first_five_ids ← hotel_ids entries [];
      match first_five_ids with
      | [] =>
          Return (JObject {[ "error"%string :=
                     JString "No hotels were found for the specified city." ]})
      | _ => get_hotel_offers first_five_ids (offers_request first_five_ids)
      end.

End Model.

Arguments JNull {number}.
Arguments JBool {number} b.
Arguments JNumber {number} n.
Arguments JString {number} s.
Arguments JArray {number} xs.
Arguments JObject {number} d.
Arguments Body {number} body.
Arguments RequestException {number} message.
Arguments SetOf {number} a b.
Arguments Text {number} s.
Arguments contains {number} key x.
Arguments getitem {number} x key.
Arguments get {number} x key default.
Arguments iterate {number} x.
Arguments get_access_token {number} post.
Arguments search_hotels_by_city {number} request.
Arguments get_hotel_offers {number} hotel_ids request.
Arguments search_pois {number} request.
Arguments set_of {number} a b.

End Server.

(** ** Concrete inputs for the further properties *)

(** The tracker [FlightSearchBranchManager(3)] as [wrapped] uses it, with
    the parameters by name. *)
Definition tracker3 : FlightSearchBranchManager Z (gmap string string) :=
  {| tree := {| size := 3;
                versions := [Inner 0 2 None
                               (Inner 0 1 None (Leaf 0 0 None) (Leaf 1 1 None))
                               (Leaf 2 2 None)] |};
     branch_params := [None; None; None];
     current_version := 0;
     next_idx := 0 |}.

(** The same with two slots. *)
Definition tracker2_with_names
  : FlightSearchBranchManager Z (gmap string string) :=
  {| tree := {| size := 2;
                versions := [Inner 0 1 None (Leaf 0 0 None) (Leaf 1 1 None)] |};
     branch_params := [None; None];
     current_version := 0;
     next_idx := 0 |}.

(** Two calls of the wrapped tool whose tools return 100 and 200. *)
Definition two_calls
  : list (list string * gmap string string * result (option Z)) :=
  [(["BOS"; "PAR"]%string, {[ "adults"%string := "2"%string ]}, Ok (Some 100));
   ([], ∅, Ok (Some 200))].

(** Integers as the numbers of a document, byte prefixes as string
    slices. *)
Definition int_truth (n : Z) : bool := negb (n =? 0).
Definition byte_slice (n : nat) (s : string) : string := String.substring 0 n s.

(** The hotels of a search answer: one with an id, one without, and the
    answer that holds them. *)
Definition hotel_entries : list (gmap string (Server.json Z)) :=
  [{[ "hotelId"%string := Server.JString "H1" ]}; ∅].
Definition hotels_answer : gmap string (Server.json Z) :=
  {[ "data"%string := Server.JArray (Server.JObject <$> hotel_entries) ]}.

(** ** Properties of the tree *)

Section TreeFacts.
Context {V : Type}.
Local Abbreviation value := (option V).
Local Abbreviation Node := (PersistentSegmentTreeNode V).
Local Abbreviation Tree := (PersistentSegmentTree V).
Implicit Types (node : Node) (t : Tree) (v : value).

Lemma mid_bounds l r : 2 * ((l + r) `div` 2) ≤ l + r < 2 * ((l + r) `div` 2) + 2.
Proof. Z.div_mod_to_equations. lia. Qed.

Lemma seqZ_split l m r :
  l ≤ m + 1 → m ≤ r →
  seqZ l (r - l + 1) = seqZ l (m - l + 1) ++ seqZ (m + 1) (r - (m + 1) + 1).
Proof.
  intros. replace (r - l + 1) with ((m - l + 1) + (r - (m + 1) + 1)) by lia.
  rewrite seqZ_app by lia. do 2 f_equal; lia.
Qed.

Ltac ztests :=
  rewrite ?Z.gtb_ltb;
  repeat match goal with
    | |- context [?a =? ?b] => destruct (Z.eqb_spec a b)
    | |- context [?a <=? ?b] => destruct (Z.leb_spec a b)
    | |- context [?a <? ?b] => destruct (Z.ltb_spec a b)
    end; simpl; try lia; try done.

Lemma shaped_range l r node :
  shaped l r node → node_left node = l ∧ node_right node = r ∧ l ≤ r.
Proof. destruct node; simpl; intros; intuition lia. Qed.

(** The recursion limit in [_build]: with one level nothing is built,
    and from two on the levels only bound the recursion. *)
Lemma _build_small depth l r :
  (depth ≤ 1)%nat → _build (V:=V) depth l r = Raise RecursionError.
Proof.
  intros Hd. destruct depth as [|[|depth]]; [done| |lia]. simpl.
  by destruct (l =? r).
Qed.

Lemma _build_S depth l r :
  (1 ≤ depth)%nat →
  _build (V:=V) (S depth) l r
  = if l =? r then Ok (Leaf l r None)
    else
      let m := (l + r) `div` 2 in
      left_child ← _build depth l m;
      right_child ← _build depth (m + 1) r;
      Ok (Inner l r None left_child right_child).
Proof. intros Hd. by destruct depth as [|depth]; [lia|]. Qed.

Lemma _build_empty_range depth l r :
  r < l → _build (V:=V) depth l r = Raise RecursionError.
Proof.
  revert l r. induction depth as [|depth IH]; intros l r Hlr; simpl; [done|].
  destruct (Z.eqb_spec l r); [lia|].
  rewrite (IH l ((l + r) `div` 2)); [reflexivity|].
  pose proof (mid_bounds l r). lia.
Qed.

Lemma _build_sound depth l r node :
  _build depth l r = Ok node →
  shaped l r node ∧ leaves node = (λ i, (i, None)) <$> seqZ l (r - l + 1).
Proof.
  revert l r node. induction depth as [|depth IH]; intros l r node; [done|].
  destruct (decide (1 ≤ depth)%nat) as [Hd|Hd];
    [rewrite (_build_S _ _ _ Hd)|by rewrite _build_small by lia].
  simpl. destruct (Z.eqb_spec l r) as [->|Hne].
  { intros [= <-]. split; [done|]. simpl. by replace (r - r + 1) with 1 by lia. }
  destruct (Z_lt_le_dec r l) as [Hrl|Hlr].
  { pose proof (mid_bounds l r).
    by rewrite (_build_empty_range depth l ((l + r) `div` 2)) by lia. }
  destruct (_build depth l _) as [lc|] eqn:Hlc; [|done].
  destruct (_build depth _ r) as [rc|] eqn:Hrc; [|done].
  intros [= <-]. apply IH in Hlc as [Hl Hleft]. apply IH in Hrc as [Hr Hright].
  pose proof (mid_bounds l r). split; [simpl; intuition lia|].
  simpl. rewrite Hleft, Hright, <- fmap_app. f_equal.
  symmetry. apply seqZ_split; lia.
Qed.

Lemma _build_total depth l r :
  l ≤ r → r - l < 2 ^ (Z.of_nat depth - 2) →
  ∃ node, _build (V:=V) depth l r = Ok node.
Proof.
  revert l r. induction depth as [|depth IH]; intros l r Hlr Hd.
  { simpl in Hd. lia. }
  assert (Htwo : (1 ≤ depth)%nat).
  { destruct (decide (1 ≤ depth)%nat); [done|].
    rewrite Z.pow_neg_r in Hd by lia. lia. }
  rewrite (_build_S _ _ _ Htwo).
  destruct (Z.eqb_spec l r) as [->|Hne]; [by eexists|].
  pose proof (mid_bounds l r) as Hm.
  assert (Hpow : 2 ^ (Z.of_nat (S depth) - 2) = 2 * 2 ^ (Z.of_nat depth - 2)).
  { destruct (decide (depth = 1%nat)) as [->|]; [simpl in Hd; lia|].
    rewrite <- Z.pow_succ_r by lia. f_equal. lia. }
  simpl.
  destruct (IH l ((l + r) `div` 2)) as (lc & ->); [lia..|].
  destruct (IH ((l + r) `div` 2 + 1) r) as (rc & ->); [lia..|].
  by eexists.
Qed.

Lemma _build_raises depth l r e :
  _build (V:=V) depth l r = Raise e → e = RecursionError.
Proof.
  revert l r. induction depth as [|depth IH]; intros l r; [by intros [= <-]|].
  destruct (decide (1 ≤ depth)%nat) as [Hd|Hd];
    [rewrite (_build_S _ _ _ Hd)|by rewrite _build_small by lia; intros [= <-]].
  destruct (l =? r); [done|]. simpl.
  destruct (_build depth l _) as [lc|e1] eqn:Hlc; simpl.
  - destruct (_build depth _ r) as [rc|e2] eqn:Hrc; simpl; [done|].
    intros [= <-]. by eapply IH.
  - intros [= <-]. by eapply IH.
Qed.

Lemma _build_height depth l r node :
  _build depth l r = Ok node → (height node + 1 ≤ depth)%nat.
Proof.
  revert l r node. induction depth as [|depth IH]; intros l r node; [done|].
  destruct (decide (1 ≤ depth)%nat) as [Hd|Hd];
    [rewrite (_build_S _ _ _ Hd)|by rewrite _build_small by lia].
  destruct (l =? r); [intros [= <-]; simpl; lia|]. simpl.
  destruct (_build depth l _) as [lc|] eqn:Hlc; [|done].
  destruct (_build depth _ r) as [rc|] eqn:Hrc; [|done].
  intros [= <-]. apply IH in Hlc, Hrc. simpl. lia.
Qed.

Lemma height_size l r node :
  shaped l r node → r - l + 1 ≤ 2 ^ (Z.of_nat (height node) - 1).
Proof.
  revert l r. induction node as [nl nr v|nl nr v lc IHl rc IHr]; intros l r Hs.
  - destruct Hs as (-> & -> & ->). simpl. lia.
  - destruct Hs as (-> & -> & Hlt & Hl & Hr). simpl height.
    apply IHl in Hl. apply IHr in Hr.
    assert (1 ≤ height lc)%nat by (destruct lc; simpl; lia).
    assert (1 ≤ height rc)%nat by (destruct rc; simpl; lia).
    set (k := (height lc `max` height rc)%nat) in *.
    assert (Hk : 2 ^ (Z.of_nat (S k) - 1) = 2 * 2 ^ (Z.of_nat k - 1)).
    { rewrite <- Z.pow_succ_r by lia. f_equal. lia. }
    assert (2 ^ (Z.of_nat (height lc) - 1) ≤ 2 ^ (Z.of_nat k - 1))
      by (apply Z.pow_le_mono_r; lia).
    assert (2 ^ (Z.of_nat (height rc) - 1) ≤ 2 ^ (Z.of_nat k - 1))
      by (apply Z.pow_le_mono_r; lia).
    lia.
Qed.

Lemma leaves_indices l r node :
  shaped l r node → (leaves node).*1 = seqZ l (r - l + 1).
Proof.
  revert l r. induction node as [nl nr v|nl nr v lc IHl rc IHr]; intros l r Hs.
  - destruct Hs as (-> & -> & ->). simpl. by replace (r - r + 1) with 1 by lia.
  - destruct Hs as (-> & -> & Hlt & Hl & Hr). simpl.
    rewrite fmap_app, (IHl _ _ Hl), (IHr _ _ Hr).
    pose proof (mid_bounds l r). symmetry. apply seqZ_split; lia.
Qed.

Lemma leaves_bounds l r node p :
  shaped l r node → p ∈ leaves node → l ≤ p.1 ≤ r.
Proof.
  intros Hs Hp. apply (list_elem_of_fmap_2 fst) in Hp.
  rewrite (leaves_indices _ _ _ Hs), elem_of_seqZ in Hp. lia.
Qed.

Lemma filter_none {A} (Q : A → Prop) `{∀ x, Decision (Q x)} (xs : list A) :
  (∀ x, x ∈ xs → ¬ Q x) → filter Q xs = [].
Proof.
  induction xs as [|x xs IH]; intros Hall; [done|].
  rewrite filter_cons_False by (apply Hall; left).
  apply IH. intros y Hy. apply Hall. by right.
Qed.

Lemma filter_all {A} (Q : A → Prop) `{∀ x, Decision (Q x)} (xs : list A) :
  (∀ x, x ∈ xs → Q x) → filter Q xs = xs.
Proof.
  induction xs as [|x xs IH]; intros Hall; [done|].
  rewrite filter_cons_True by (apply Hall; left).
  f_equal. apply IH. intros y Hy. apply Hall. by right.
Qed.

Lemma leaves_outside l r node ql qr :
  shaped l r node → r < ql ∨ qr < l → filter (within ql qr) (leaves node) = [].
Proof.
  intros Hs Hout. apply filter_none. intros p Hp.
  pose proof (leaves_bounds _ _ _ _ Hs Hp). unfold within. lia.
Qed.

(** What [_query] returns on a well-shaped tree. *)
Lemma _query_spec l r node ql qr :
  shaped l r node →
  _query node ql qr = Ok (filter (within ql qr) (leaves node)).*2.
Proof.
  revert l r. induction node as [nl nr v|nl nr v lc IHl rc IHr]; intros l r Hs.
  - destruct Hs as (-> & -> & ->). simpl. rewrite filter_cons, filter_nil.
    destruct (decide (within ql qr (r, v))) as [Hw|Hw];
      unfold within in Hw; simpl in Hw; ztests.
  - destruct (decide (r < ql ∨ qr < l)) as [Hout|Hin].
    + rewrite (leaves_outside _ _ _ _ _ Hs Hout).
      destruct Hs as (-> & -> & _). simpl. ztests.
    + destruct Hs as (-> & -> & Hlt & Hl & Hr). simpl.
      rewrite (IHl _ _ Hl), (IHr _ _ Hr), filter_app, fmap_app. ztests.
Qed.

Lemma _query_outside l r node ql qr :
  shaped l r node → r < ql ∨ qr < l → _query node ql qr = Ok [].
Proof.
  intros Hs Hout.
  by rewrite (_query_spec _ _ _ _ _ Hs), (leaves_outside _ _ _ _ _ Hs Hout).
Qed.

Lemma target_left l r idx :
  l < r → idx ≤ (l + r) `div` 2 →
  target l r idx = target l ((l + r) `div` 2) idx ∧
  target l r idx ≤ (l + r) `div` 2.
Proof. intros. pose proof (mid_bounds l r). unfold target. lia. Qed.

Lemma target_right l r idx :
  l < r → (l + r) `div` 2 < idx →
  target l r idx = target ((l + r) `div` 2 + 1) r idx ∧
  (l + r) `div` 2 < target l r idx.
Proof. intros. pose proof (mid_bounds l r). unfold target. lia. Qed.

(** What [_update] returns on a well-shaped tree: a tree of the same
    shape in which the target leaf holds the value and every other leaf is
    as before. *)
Lemma _update_spec l r node idx v :
  shaped l r node →
  ∃ node', _update node idx v = Ok node' ∧ shaped l r node' ∧
    leaves node' =
      (λ p, if decide (p.1 = target l r idx) then (p.1, v) else p) <$> leaves node.
Proof.
  revert l r. induction node as [nl nr v0|nl nr v0 lc IHl rc IHr]; intros l r Hs.
  - destruct Hs as (-> & -> & ->). simpl. rewrite Z.eqb_refl.
    eexists; split; [done|]. split; [done|].
    simpl. rewrite decide_True; [done|]. unfold target. lia.
  - destruct Hs as (-> & -> & Hlt & Hl & Hr). simpl.
    destruct (Z.eqb_spec l r) as [|_]; [lia|].
    destruct (Z.leb_spec idx ((l + r) `div` 2)) as [Hle|Hgt].
    + destruct (target_left l r idx Hlt Hle) as [Ht Htm].
      destruct (IHl _ _ Hl) as (lc' & -> & Hl' & Hleaves).
      eexists; split; [done|]. split; [done|].
      simpl. rewrite fmap_app, Hleaves, <- Ht. f_equal.
      rewrite <- (list_fmap_id (leaves rc)) at 1.
      apply list_fmap_ext. intros i p Hp. apply list_elem_of_lookup_2 in Hp.
      pose proof (leaves_bounds _ _ _ _ Hr Hp). rewrite decide_False; [done|lia].
    + destruct (target_right l r idx Hlt Hgt) as [Ht Htm].
      destruct (IHr _ _ Hr) as (rc' & -> & Hr' & Hleaves).
      eexists; split; [done|]. split; [done|].
      simpl. rewrite fmap_app, Hleaves, <- Ht. f_equal.
      rewrite <- (list_fmap_id (leaves lc)) at 1.
      apply list_fmap_ext. intros i p Hp. apply list_elem_of_lookup_2 in Hp.
      pose proof (leaves_bounds _ _ _ _ Hl Hp). rewrite decide_False; [done|lia].
Qed.

(** The indices of the leaves a query selects: the part of the query
    range inside the tree, in ascending order. *)
Lemma filter_within_indices (xs : list (Z * value)) l n ql qr :
  xs.*1 = seqZ l n →
  (filter (within ql qr) xs).*1 =
    seqZ (l `max` ql) ((l + n - 1) `min` qr - l `max` ql + 1).
Proof.
  revert l n. induction xs as [|p xs IH]; intros l n Hxs.
  - assert (n ≤ 0).
    { apply (f_equal length) in Hxs. rewrite length_seqZ in Hxs.
      simpl in Hxs. lia. }
    rewrite seqZ_nil by lia. done.
  - assert (0 < n).
    { destruct (Z_lt_le_dec 0 n); [done|]. by rewrite seqZ_nil in Hxs by lia. }
    rewrite seqZ_cons in Hxs by done. simpl in Hxs.
    injection Hxs as Hp Hxs. specialize (IH _ _ Hxs).
    rewrite filter_cons. destruct (decide (within ql qr p)) as [Hw|Hw];
      unfold within in Hw; rewrite Hp in Hw.
    + rewrite fmap_cons, IH, Hp.
      rewrite (seqZ_cons (l `max` ql)) by lia.
      replace (l `max` ql) with l by lia. f_equal. f_equal; lia.
    + rewrite IH. destruct (Z_lt_le_dec l ql).
      * f_equal; lia.
      * rewrite !seqZ_nil by lia. done.
Qed.

Lemma filter_within_point (xs : list (Z * value)) l n c :
  xs.*1 = seqZ l n → l ≤ c < l + n →
  ∃ x, filter (within c c) xs = [(c, x)].
Proof.
  intros Hxs Hc. pose proof (filter_within_indices xs l n c c Hxs) as Hf.
  replace (l `max` c) with c in Hf by lia.
  replace ((l + n - 1) `min` c - c + 1) with 1 in Hf by lia.
  destruct (filter (within c c) xs) as [|[i x] [|q ys]]; try done.
  injection Hf as ->. by exists x.
Qed.

Lemma filter_within_fmap (f : Z * value → Z * value) (xs : list (Z * value)) ql qr :
  (∀ p, (f p).1 = p.1) →
  filter (within ql qr) (f <$> xs) = f <$> filter (within ql qr) xs.
Proof.
  intros Hf. induction xs as [|p xs IH]; [done|].
  rewrite fmap_cons, !filter_cons, IH.
  destruct (decide (within ql qr (f p))) as [Hw|Hw];
    destruct (decide (within ql qr p)) as [Hw'|Hw']; try done;
    unfold within in *; rewrite Hf in Hw; done.
Qed.

Lemma _update_hit l r node idx v node' :
  shaped l r node → _update node idx v = Ok node' →
  _query node' (target l r idx) (target l r idx) = Ok [v].
Proof.
  intros Hs Hup. destruct (_update_spec l r node idx v Hs) as (? & Hup' & Hs' & Hl).
  rewrite Hup in Hup'. injection Hup' as <-.
  rewrite (_query_spec _ _ _ _ _ Hs'), Hl, filter_within_fmap
    by (intros p; by destruct (decide _)).
  pose proof (proj1 (shaped_range _ _ _ Hs)).
  destruct (filter_within_point (leaves node) l (r - l + 1) (target l r idx))
    as [x ->]; [by apply leaves_indices|unfold target; pose proof (shaped_range _ _ _ Hs); lia|].
  simpl. by rewrite decide_True.
Qed.

Lemma _update_miss l r node idx v node' ql qr :
  shaped l r node → _update node idx v = Ok node' →
  ¬ (ql ≤ target l r idx ≤ qr) →
  _query node' ql qr = _query node ql qr.
Proof.
  intros Hs Hup Hout. destruct (_update_spec l r node idx v Hs) as (? & Hup' & Hs' & Hl).
  rewrite Hup in Hup'. injection Hup' as <-.
  rewrite (_query_spec _ _ _ _ _ Hs'), (_query_spec _ _ _ _ _ Hs), Hl,
    filter_within_fmap by (intros p; by destruct (decide _)).
  do 2 f_equal. rewrite <- (list_fmap_id (filter _ _)) at 2.
  apply list_fmap_ext. intros i p Hp. apply list_elem_of_lookup_2 in Hp.
  apply list_elem_of_filter in Hp as [Hw _]. unfold within in Hw.
  rewrite decide_False; [done|]. intros Heq. rewrite Heq in Hw. done.
Qed.

Lemma _query_point l r node i :
  shaped l r node → l ≤ i ≤ r → ∃ x, _query node i i = Ok [x].
Proof.
  intros Hs Hi. rewrite (_query_spec _ _ _ _ _ Hs).
  destruct (filter_within_point (leaves node) l (r - l + 1) i) as [x ->];
    [by apply leaves_indices|lia|]. by exists x.
Qed.

(** *** Python subscripts *)

Lemma py_subscript_valid n i : 0 ≤ i < n → py_subscript n i = Ok (Z.to_nat i).
Proof. intros. unfold py_subscript. ztests. Qed.

Lemma py_subscript_Ok n i j :
  py_subscript n i = Ok j → (Z.of_nat j < n) ∧ - n ≤ i < n.
Proof. unfold py_subscript. ztests; intros [= <-]; lia. Qed.

Lemma py_subscript_outside n i :
  i < - n ∨ n ≤ i → py_subscript n i = Raise IndexError.
Proof. intros. unfold py_subscript. ztests. Qed.

Lemma list_getitem_valid {A} (xs : list A) i :
  0 ≤ i < Z.of_nat (length xs) →
  ∃ x, xs !! Z.to_nat i = Some x ∧ list_getitem xs i = Ok x.
Proof.
  intros Hi. unfold list_getitem. rewrite py_subscript_valid by done. simpl.
  destruct (lookup_lt_is_Some_2 xs (Z.to_nat i)) as [x Hx]; [lia|].
  exists x. by rewrite Hx.
Qed.

Lemma list_getitem_inside {A} (xs : list A) i :
  - Z.of_nat (length xs) ≤ i < Z.of_nat (length xs) →
  ∃ x, x ∈ xs ∧ list_getitem xs i = Ok x.
Proof.
  intros Hi. unfold list_getitem.
  destruct (py_subscript _ i) as [j|] eqn:Hj; simpl.
  - apply py_subscript_Ok in Hj as [Hj _].
    destruct (lookup_lt_is_Some_2 xs j) as [x Hx]; [lia|].
    exists x. rewrite Hx. split; [|done]. by eapply list_elem_of_lookup_2.
  - revert Hj. unfold py_subscript. ztests.
Qed.

Lemma list_getitem_outside {A} (xs : list A) i :
  i < - Z.of_nat (length xs) ∨ Z.of_nat (length xs) ≤ i →
  list_getitem xs i = Raise IndexError.
Proof. intros. unfold list_getitem. by rewrite py_subscript_outside. Qed.

Lemma list_getitem_lookup {A} (xs : list A) i x :
  list_getitem xs i = Ok x →
  xs !! Z.to_nat (if i <? 0 then i + Z.of_nat (length xs) else i) = Some x.
Proof.
  unfold list_getitem, py_subscript. cbv zeta.
  destruct (_ && _); simpl; [|done].
  destruct (xs !! _) as [y|] eqn:Hy; [|done]. by intros [= <-].
Qed.

Lemma list_getitem_app {A} (xs ys : list A) i :
  0 ≤ i < Z.of_nat (length xs) → list_getitem (xs ++ ys) i = list_getitem xs i.
Proof.
  intros Hi. unfold list_getitem.
  rewrite !py_subscript_valid by (rewrite ?length_app; lia). simpl.
  by rewrite lookup_app_l by lia.
Qed.

Lemma list_getitem_last {A} (xs : list A) x :
  list_getitem (xs ++ [x]) (Z.of_nat (length xs)) = Ok x.
Proof.
  unfold list_getitem.
  rewrite py_subscript_valid by (rewrite length_app; simpl; lia). simpl.
  rewrite Nat2Z.id, lookup_app_r by lia. by rewrite Nat.sub_diag.
Qed.

(** *** The version list *)

Lemma init_ok depth n t :
  PersistentSegmentTree__init__ depth n = Ok t →
  tree_ok n t ∧
  ∃ root, t = {| size := n; versions := [root] |} ∧
          leaves root = (λ i, (i, None)) <$> seqZ 0 n.
Proof.
  unfold PersistentSegmentTree__init__. destruct depth as [|[|depth]]; [done..|].
  destruct (_build depth 0 (n - 1)) as [root|] eqn:Hb; [|done].
  intros [= <-]. apply _build_sound in Hb as [Hs Hl].
  pose proof (shaped_range _ _ _ Hs). split.
  - repeat split; simpl; [lia|done|]. by apply Forall_singleton.
  - exists root. split; [done|]. rewrite Hl. do 2 f_equal. lia.
Qed.

(** What the constructor does, by the levels of recursion it is given:
    a tree of size [n] needs [⌈log2 n⌉ + 4] of them, two for the tree
    object, one for each [_build] and one for the node of a leaf. *)
Lemma init_unfold depth n t :
  PersistentSegmentTree__init__ depth n = Ok t →
  ∃ depth' root, depth = S (S depth') ∧ _build depth' 0 (n - 1) = Ok root ∧
                 t = {| size := n; versions := [root] |}.
Proof.
  unfold PersistentSegmentTree__init__. destruct depth as [|[|depth]]; [done..|].
  destruct (_build depth 0 (n - 1)) as [root|] eqn:Hb; [|done].
  intros [= <-]. by exists depth, root.
Qed.

Lemma init_raises depth n e :
  PersistentSegmentTree__init__ (V:=V) depth n = Raise e → e = RecursionError.
Proof.
  unfold PersistentSegmentTree__init__.
  destruct depth as [|[|depth]]; [by intros [= <-]..|].
  destruct (_build depth 0 (n - 1)) as [root|e'] eqn:Hroot; [done|].
  intros [= <-]. by eapply _build_raises.
Qed.

Lemma init_needs depth n t :
  PersistentSegmentTree__init__ depth n = Ok t →
  1 ≤ n ≤ 2 ^ (Z.of_nat depth - 4).
Proof.
  intros (depth' & root & -> & Hroot & _)%init_unfold.
  pose proof (_build_height _ _ _ _ Hroot) as Hh.
  apply _build_sound in Hroot as [Hs _].
  pose proof (shaped_range _ _ _ Hs) as (_ & _ & Hn).
  pose proof (height_size _ _ _ Hs) as Hsz.
  assert (1 ≤ height root)%nat by (destruct root; simpl; lia).
  assert (2 ^ (Z.of_nat (height root) - 1) ≤ 2 ^ (Z.of_nat (S (S depth')) - 4))
    by (apply Z.pow_le_mono_r; lia).
  lia.
Qed.

Lemma init_total depth n :
  1 ≤ n ≤ 2 ^ (Z.of_nat depth - 4) →
  ∃ root : Node, PersistentSegmentTree__init__ depth n
                 = Ok {| size := n; versions := [root] |}.
Proof.
  intros Hn. unfold PersistentSegmentTree__init__.
  destruct depth as [|[|depth]]; [simpl in Hn; lia..|].
  destruct (_build_total depth 0 (n - 1)) as [root ->]; [lia| |by eexists].
  replace (Z.of_nat depth - 2) with (Z.of_nat (S (S depth)) - 4) by lia. lia.
Qed.

Lemma init_threshold depth n :
  1 ≤ n →
  if decide (Z.to_nat (Z.log2_up n + 4) ≤ depth)%nat
  then ∃ root : Node, PersistentSegmentTree__init__ depth n
                      = Ok {| size := n; versions := [root] |}
  else PersistentSegmentTree__init__ (V:=V) depth n = Raise RecursionError.
Proof.
  intros Hn. pose proof (Z.log2_up_nonneg n) as Hlog.
  pose proof (Z.log2_up_le_pow2 n (Z.of_nat depth - 4)) as Hpow.
  destruct (decide _) as [Hd|Hd].
  - apply init_total. split; [done|]. apply Hpow; lia.
  - destruct (PersistentSegmentTree__init__ depth n) as [t|e] eqn:Hinit.
    + apply init_needs in Hinit. assert (Z.log2_up n ≤ Z.of_nat depth - 4)
        by (apply Hpow; lia). lia.
    + by rewrite (init_raises _ _ _ Hinit).
Qed.

Lemma update_success n t version idx v :
  tree_ok n t →
  - Z.of_nat (length (versions t)) ≤ version < Z.of_nat (length (versions t)) →
  ∃ root root',
    list_getitem (versions t) version = Ok root ∧ shaped 0 (n - 1) root ∧
    _update root idx v = Ok root' ∧ shaped 0 (n - 1) root' ∧
    update t version idx v =
      ({| size := size t; versions := versions t ++ [root'] |},
       Ok (Z.of_nat (length (versions t)))).
Proof.
  intros (Hsz & Hn & Hne & Hall) Hv.
  destruct (list_getitem_inside _ _ Hv) as (root & Hin & Hget).
  assert (Hs : shaped 0 (n - 1) root) by by eapply Forall_forall in Hall.
  destruct (_update_spec _ _ _ idx v Hs) as (root' & Hup & Hs' & _).
  exists root, root'. repeat split; try done.
  unfold update. rewrite Hget. simpl. rewrite Hup. f_equal. f_equal.
  rewrite length_app. simpl. lia.
Qed.

Lemma update_failure t version idx v :
  version < - Z.of_nat (length (versions t)) ∨
    Z.of_nat (length (versions t)) ≤ version →
  update t version idx v = (t, Raise IndexError).
Proof. intros Hv. unfold update. by rewrite list_getitem_outside. Qed.

Lemma update_ok n t version idx v :
  tree_ok n t → tree_ok n (update t version idx v).1.
Proof.
  intros Hok.
  destruct (Z_lt_le_dec version (- Z.of_nat (length (versions t)))) as [|Hlo].
  { by rewrite update_failure by lia. }
  destruct (Z_lt_le_dec version (Z.of_nat (length (versions t)))) as [Hhi|].
  2: { by rewrite update_failure by lia. }
  destruct (update_success n t version idx v Hok) as (? & root' & _ & _ & _ & Hs & ->);
    [lia|].
  destruct Hok as (Hsz & Hn & Hne & Hall). repeat split; simpl; try done.
  - by destruct (versions t).
  - apply Forall_app. split; [done|]. by apply Forall_singleton.
Qed.

Lemma built_ok n t : built n t → tree_ok n t.
Proof.
  induction 1 as [depth t Hinit|t version idx v _ IH].
  - by apply init_ok in Hinit as [? _].
  - by apply update_ok.
Qed.

Lemma update_versions t version idx v :
  ∃ ys, versions (update t version idx v).1 = versions t ++ ys.
Proof.
  unfold update. destruct (_ ≫= _) as [root'|]; simpl.
  - by exists [root'].
  - exists []. by rewrite app_nil_r.
Qed.

Lemma later_versions t t' : later t t' → ∃ ys, versions t' = versions t ++ ys.
Proof.
  induction 1 as [|t' version idx v _ [ys IH]].
  - exists []. by rewrite app_nil_r.
  - destruct (update_versions t' version idx v) as [zs ->].
    exists (ys ++ zs). by rewrite IH, app_assoc.
Qed.

Lemma query_valid n t version l r :
  tree_ok n t → valid_version t version →
  ∃ root, versions t !! Z.to_nat version = Some root ∧ shaped 0 (n - 1) root ∧
          query t version l r = _query root l r.
Proof.
  intros (_ & _ & _ & Hall) Hv.
  destruct (list_getitem_valid _ _ Hv) as (root & Hroot & Hget).
  exists root. repeat split; [done| |by unfold query; rewrite Hget].
  eapply Forall_forall in Hall; [done|]. by eapply list_elem_of_lookup_2.
Qed.

Lemma query_new_version t root' l r :
  query {| size := size t; versions := versions t ++ [root'] |}
        (Z.of_nat (length (versions t))) l r = _query root' l r.
Proof. unfold query. simpl. by rewrite list_getitem_last. Qed.

(** *** Versions as arrays

    Read through its leaf values, a version is an array of [n] optional
    values: all [None] in version 0, and in the version an update creates
    the array of the version it started from with one entry replaced. *)

Lemma fmap_point_insert (xs : list (Z * value)) l n c x :
  xs.*1 = seqZ l n → l ≤ c < l + n →
  ((λ p, if decide (p.1 = c) then (p.1, x) else p) <$> xs).*2
    = <[Z.to_nat (c - l) := x]> (xs.*2).
Proof.
  revert l n. induction xs as [|p xs IH]; intros l n Hxs Hc.
  - rewrite seqZ_cons in Hxs by lia. done.
  - rewrite seqZ_cons in Hxs by lia. simpl in Hxs. injection Hxs as Hp Hxs.
    change (xs.*1 = seqZ (Z.succ l) (Z.pred n)) in Hxs.
    rewrite !fmap_cons. destruct (decide (p.1 = c)) as [Heq|Hne].
    + replace (Z.to_nat (c - l)) with 0%nat by lia. simpl. f_equal.
      rewrite <- list_fmap_compose. apply list_fmap_ext. intros i q Hq.
      apply list_elem_of_lookup_2 in Hq. apply (list_elem_of_fmap_2 fst) in Hq.
      rewrite Hxs, elem_of_seqZ in Hq. simpl. rewrite decide_False; [done|lia].
    + replace (Z.to_nat (c - l)) with (S (Z.to_nat (c - Z.succ l))) by lia.
      simpl. f_equal. apply (IH (Z.succ l) (Z.pred n)); [done|lia].
Qed.

Lemma update_values n t version idx x :
  built n t → valid_version t version →
  ∃ root root',
    versions t !! Z.to_nat version = Some root ∧
    (update t version idx x).1
      = {| size := size t; versions := versions t ++ [root'] |} ∧
    length (leaves root).*2 = Z.to_nat n ∧
    (leaves root').*2
      = <[Z.to_nat (target 0 (n - 1) idx) := x]> ((leaves root).*2).
Proof.
  intros Hb Hv. pose proof (built_ok _ _ Hb) as Hok.
  destruct (update_success n t version idx x Hok)
    as (root & root' & Hget & Hs & Hup & _ & ->);
    [unfold valid_version in Hv; lia|].
  destruct (list_getitem_valid _ _ Hv) as (root0 & Hroot0 & Hget0).
  rewrite Hget in Hget0. injection Hget0 as <-.
  destruct (_update_spec _ _ _ idx x Hs) as (? & Hup' & _ & Hl).
  rewrite Hup in Hup'. injection Hup' as <-.
  pose proof (leaves_indices _ _ _ Hs) as Hidx.
  destruct Hok as (_ & Hn & _).
  exists root, root'. split_and!; [done..| |].
  - rewrite length_fmap, <- (length_fmap fst), Hidx, length_seqZ. lia.
  - rewrite Hl, (fmap_point_insert _ _ _ _ _ Hidx) by (unfold target; lia).
    do 2 f_equal. lia.
Qed.

(** *** The claims about the tree *)

(** C1, persistence: in a tree of size [n], whatever updates come later
    (from any version, at any index), a query on a version that existed
    before them returns what it returned before, and it does return: the
    version stays queryable with the leaf values it had. *)
Theorem C1_persistence n t t' version l r :
  built n t → later t t' → valid_version t version →
  query t' version l r = query t version l r ∧
  ∃ xs, query t version l r = Ok xs.
Proof.
  intros Hb Hlater Hv. split.
  - destruct (later_versions _ _ Hlater) as [ys Hys].
    unfold query. rewrite Hys. by rewrite list_getitem_app.
  - destruct (query_valid n t version l r (built_ok _ _ Hb) Hv) as (root & _ & Hs & ->).
    rewrite (_query_spec _ _ _ _ _ Hs). by eexists.
Qed.

(** C2, point round-trip: in a tree of size [n], an update of a valid
    version at an index of [0, n) succeeds, returns the id of the version
    it appends, and a point query of that version at the index returns
    exactly the value written. *)
Theorem C2_point_round_trip n t version idx x :
  built n t → valid_version t version → 0 ≤ idx < n →
  ∃ t', update t version idx x = (t', Ok (Z.of_nat (length (versions t)))) ∧
        query t' (Z.of_nat (length (versions t))) idx idx = Ok [x].
Proof.
  intros Hb Hv Hidx. pose proof (built_ok _ _ Hb) as Hok.
  destruct (update_success n t version idx x Hok) as (root & root' & _ & Hs & Hup & _ & ->).
  { unfold valid_version in Hv. lia. }
  eexists; split; [done|]. rewrite query_new_version.
  pose proof (_update_hit _ _ _ _ _ _ Hs Hup) as Hhit.
  by replace (target 0 (n - 1) idx) with idx in Hhit by (unfold target; lia).
Qed.

Lemma query_full l r node :
  shaped l r node → _query node l r = Ok (leaves node).*2.
Proof.
  intros Hs. rewrite (_query_spec _ _ _ _ _ Hs), filter_all; [done|].
  intros p Hp. by apply (leaves_bounds l r node).
Qed.

(** C3 as the code has it: [update] fails exactly when the version id is
    outside [-len(versions), len(versions)), with the [IndexError] of the
    list subscript, and then the tree is what it was, no version
    appended. With any version id inside that range it succeeds whatever
    [idx] is: the version it starts from is the one at that position of
    the list, counted from the end of the list for a negative id; it
    appends exactly one version, whose id it returns; and that version
    reads as the one it started from with [x] at the leaf of [idx], or
    at the first or last leaf for an [idx] below or above [0, size - 1]. *)
Theorem C3_update_failure n t version idx x :
  built n t →
  (version < - Z.of_nat (length (versions t)) ∨
     Z.of_nat (length (versions t)) ≤ version →
   update t version idx x = (t, Raise IndexError)) ∧
  (- Z.of_nat (length (versions t)) ≤ version < Z.of_nat (length (versions t)) →
   ∃ root root' xs,
     versions t !! Z.to_nat (if version <? 0
                             then version + Z.of_nat (length (versions t))
                             else version) = Some root ∧
     update t version idx x
       = ({| size := size t; versions := versions t ++ [root'] |},
          Ok (Z.of_nat (length (versions t)))) ∧
     _query root 0 (n - 1) = Ok xs ∧ length xs = Z.to_nat n ∧
     _query root' 0 (n - 1)
       = Ok (<[Z.to_nat (0 `max` (idx `min` (n - 1))) := x]> xs)).
Proof.
  intros Hb. split; [apply update_failure|]. intros Hv.
  pose proof (built_ok _ _ Hb) as Hok. pose proof Hok as (_ & Hn & _).
  destruct (update_success n t version idx x Hok Hv)
    as (root & root' & Hget & Hs & Hup & Hs' & Hupd).
  destruct (_update_spec _ _ _ idx x Hs) as (? & Hup' & _ & Hl).
  rewrite Hup in Hup'. injection Hup' as <-.
  pose proof (leaves_indices _ _ _ Hs) as Hidx.
  exists root, root', (leaves root).*2. split_and!.
  - by apply list_getitem_lookup.
  - done.
  - by apply query_full.
  - rewrite length_fmap, <- (length_fmap fst), Hidx, length_seqZ. lia.
  - rewrite (query_full _ _ _ Hs'), Hl.
    rewrite (fmap_point_insert _ _ _ _ _ Hidx) by (unfold target; lia).
    unfold target. do 2 f_equal. lia.
Qed.

(** C8 as the code has it: with [1 ≤ size], construction returns once
    the recursion limit leaves enough levels for the nested calls, and
    ends in [RecursionError] below that number of levels; what it returns
    is a tree whose only version has the leaves [0 .. size - 1], all
    unset. With [size < 1] the recursion never reaches a leaf and
    construction ends in [RecursionError] whatever the limit. *)
Theorem C8_construction n :
  (1 ≤ n →
   ∃ depth0 : nat, ∀ depth : nat,
     ((depth0 ≤ depth)%nat →
      ∃ root : Node, PersistentSegmentTree__init__ depth n
                = Ok {| size := n; versions := [root] |} ∧
              leaves root = (λ i, (i, None)) <$> seqZ 0 n ∧
              _query root 0 (n - 1) = Ok (replicate (Z.to_nat n) None)) ∧
     ((depth < depth0)%nat →
      PersistentSegmentTree__init__ (V:=V) depth n = Raise RecursionError)) ∧
  (n < 1 →
   ∀ depth, PersistentSegmentTree__init__ (V:=V) depth n = Raise RecursionError).
Proof.
  split.
  - intros Hn. exists (Z.to_nat (Z.log2_up n + 4)). intros depth.
    pose proof (init_threshold depth n Hn) as Hth.
    destruct (decide _) as [Hd|Hd]; split; intros Hd'; try lia; [|done].
    destruct Hth as [root Hinit].
    destruct (init_ok _ _ _ Hinit) as [(_ & _ & _ & Hall) (root0 & [= <-] & Hl)].
    exists root. repeat split; [done..|].
    simpl in Hall. rewrite Forall_singleton in Hall. rewrite (_query_spec _ _ _ _ _ Hall), Hl.
    f_equal. rewrite filter_all.
    + rewrite <- list_fmap_compose, (const_fmap _ _ None) by done.
      by rewrite length_seqZ.
    + intros p Hp. apply list_elem_of_fmap in Hp as (i & -> & Hi).
      apply elem_of_seqZ in Hi. unfold within. simpl. lia.
  - intros Hn depth.
    destruct (PersistentSegmentTree__init__ depth n) as [t|e] eqn:Hinit.
    + apply init_needs in Hinit. lia.
    + by rewrite (init_raises _ _ _ Hinit).
Qed.

(** C9, query output shape: in a tree of size [n], a query of a valid
    version with any integers [l], [r] returns the values of the leaves
    whose index lies in [l, r], in the order of the leaves; those indices
    are [max 0 l .. min (n - 1) r] in ascending order, where the leaves of
    the version are those of the indices [0 .. n - 1]; a leaf holding
    [None] contributes [None]; with [r < l] the result is empty. *)
Theorem C9_query_shape n t version :
  built n t → valid_version t version →
  ∃ root, versions t !! Z.to_nat version = Some root ∧
    (leaves root).*1 = seqZ 0 n ∧
    ∀ l r,
      query t version l r = Ok (filter (within l r) (leaves root)).*2 ∧
      (filter (within l r) (leaves root)).*1
        = seqZ (0 `max` l) ((n - 1) `min` r - 0 `max` l + 1) ∧
      (r < l → query t version l r = Ok []).
Proof.
  intros Hb Hv. pose proof (built_ok _ _ Hb) as Hok.
  destruct (query_valid n t version 0 0 Hok Hv) as (root & Hroot & Hs & _).
  pose proof (leaves_indices _ _ _ Hs) as Hidx.
  replace (n - 1 - 0 + 1) with n in Hidx by lia.
  exists root. repeat split; [done..| | |].
  - unfold query. destruct (list_getitem_valid _ _ Hv) as (root0 & Hroot0 & ->).
    simpl. rewrite Hroot in Hroot0. injection Hroot0 as <-.
    by apply (_query_spec 0 (n - 1)).
  - rewrite (filter_within_indices _ 0 n l r Hidx). do 2 f_equal; lia.
  - intros Hlr. unfold query.
    destruct (list_getitem_valid _ _ Hv) as (root0 & Hroot0 & ->).
    simpl. rewrite Hroot in Hroot0. injection Hroot0 as <-.
    rewrite (_query_spec _ _ _ _ _ Hs). rewrite filter_none; [done|].
    unfold within. intros p _. lia.
Qed.

(** C10, out-of-range updates are clamped: in a tree of size [n], an
    update of a valid version with [n ≤ idx] succeeds, appends a version
    and stores the value at leaf [n - 1]; with [idx < 0] it succeeds,
    appends a version and stores the value at leaf [0]. *)
Theorem C10_update_clamps n t version idx x :
  built n t → valid_version t version → idx < 0 ∨ n ≤ idx →
  ∃ t', update t version idx x = (t', Ok (Z.of_nat (length (versions t)))) ∧
        length (versions t') = S (length (versions t)) ∧
        (n ≤ idx → query t' (Z.of_nat (length (versions t))) (n - 1) (n - 1) = Ok [x]) ∧
        (idx < 0 → query t' (Z.of_nat (length (versions t))) 0 0 = Ok [x]).
Proof.
  intros Hb Hv Hidx. pose proof (built_ok _ _ Hb) as Hok.
  destruct (update_success n t version idx x Hok) as (root & root' & _ & Hs & Hup & _ & ->).
  { unfold valid_version in Hv. lia. }
  destruct Hok as (_ & Hn & _).
  eexists; split; [done|]. rewrite !query_new_version. simpl.
  pose proof (_update_hit _ _ _ _ _ _ Hs Hup) as Hhit.
  split; [rewrite length_app; simpl; lia|]. split; intros Hcase.
  - by replace (target 0 (n - 1) idx) with (n - 1) in Hhit by (unfold target; lia).
  - by replace (target 0 (n - 1) idx) with 0 in Hhit by (unfold target; lia).
Qed.

End TreeFacts.

(** ** Properties of the branch tracker *)

Section TrackerFacts.
Context {V P : Type}.
Local Abbreviation value := (option V).
Local Abbreviation Node := (PersistentSegmentTreeNode V).
Local Abbreviation Tree := (PersistentSegmentTree V).
Local Abbreviation Manager := (FlightSearchBranchManager V P).
Implicit Types (m : Manager) (res : value) (p : P).

Lemma manager_init_ok depth max_branches m :
  FlightSearchBranchManager__init__ depth max_branches = Ok m →
  manager_ok max_branches m ∧ next_idx m = 0.
Proof.
  unfold FlightSearchBranchManager__init__. destruct depth as [|[|depth]]; [done..|].
  destruct (PersistentSegmentTree__init__ depth max_branches) as [t|] eqn:Ht; [|done].
  intros [= <-]. destruct (init_ok _ _ _ Ht) as [Hok (root & -> & Hl)].
  split; [|done]. unfold manager_ok. split_and!; simpl; try done.
  - apply length_replicate.
  - destruct Hok as (_ & ? & _). lia.
  - apply Forall_singleton. intros q Hq _. rewrite Hl in Hq.
    by apply list_elem_of_fmap in Hq as (i & -> & _).
Qed.

Lemma add_branch_capacity max_branches m p res from_version :
  manager_ok max_branches m → max_branches ≤ next_idx m →
  add_branch m p res from_version = (m, Raise IndexError).
Proof.
  intros (_ & Hlen & _) Hcap. unfold add_branch, list_setitem.
  by rewrite py_subscript_outside by lia.
Qed.

Lemma add_branch_invalid max_branches m p res from_version :
  manager_ok max_branches m → next_idx m < max_branches →
  parent_version m from_version < - Z.of_nat (length (versions (tree m))) ∨
    Z.of_nat (length (versions (tree m))) ≤ parent_version m from_version →
  add_branch m p res from_version =
    ({| tree := tree m;
        branch_params := <[Z.to_nat (next_idx m) :=
                             Some {| params := p; result_of := res |}]> (branch_params m);
        current_version := current_version m;
        next_idx := next_idx m |}, Raise IndexError).
Proof.
  intros (_ & Hlen & Hidx & _) Hfree Hv. unfold add_branch, list_setitem.
  rewrite py_subscript_valid by lia. simpl.
  fold (parent_version m from_version). by rewrite update_failure.
Qed.

Lemma add_branch_success max_branches m p res from_version :
  manager_ok max_branches m → next_idx m < max_branches →
  - Z.of_nat (length (versions (tree m))) ≤ parent_version m from_version
    < Z.of_nat (length (versions (tree m))) →
  ∃ root root',
    list_getitem (versions (tree m)) (parent_version m from_version) = Ok root ∧
    root ∈ versions (tree m) ∧
    shaped 0 (max_branches - 1) root ∧
    _update root (next_idx m) res = Ok root' ∧
    add_branch m p res from_version =
      ({| tree := {| size := size (tree m);
                     versions := versions (tree m) ++ [root'] |};
          branch_params := <[Z.to_nat (next_idx m) :=
                               Some {| params := p; result_of := res |}]> (branch_params m);
          current_version := Z.of_nat (length (versions (tree m)));
          next_idx := next_idx m + 1 |},
       Ok (Z.of_nat (length (versions (tree m))))).
Proof.
  intros (Hok & Hlen & Hidx & _) Hfree Hv.
  destruct (update_success _ _ _ (next_idx m) res Hok Hv)
    as (root & root' & Hget & Hs & Hup & _ & Hupd).
  exists root, root'. repeat split; try done.
  - destruct (list_getitem_inside _ _ Hv) as (root0 & Hin & Hget0).
    rewrite Hget in Hget0. by injection Hget0 as <-.
  - unfold add_branch, list_setitem. rewrite py_subscript_valid by lia. simpl.
    fold (parent_version m from_version). by rewrite Hupd.
Qed.

Lemma add_branch_ok max_branches m p res from_version :
  manager_ok max_branches m →
  manager_ok max_branches (add_branch m p res from_version).1.
Proof.
  intros Hok. destruct (Z_lt_le_dec (next_idx m) max_branches) as [Hfree|Hcap].
  2: { by rewrite (add_branch_capacity max_branches). }
  destruct (decide (- Z.of_nat (length (versions (tree m)))
                      ≤ parent_version m from_version
                      < Z.of_nat (length (versions (tree m))))) as [Hv|Hv].
  - destruct (add_branch_success _ _ p res from_version Hok Hfree Hv)
      as (root & root' & _ & Hin & Hs & Hup & ->).
    destruct Hok as (Htree & Hlen & Hidx & Hvers & Hcur & Hnone).
    destruct (_update_spec _ _ _ (next_idx m) res Hs) as (? & Hup' & Hs' & Hl).
    rewrite Hup in Hup'. injection Hup' as <-.
    unfold manager_ok. split_and!; simpl; try lia.
    + destruct Htree as (? & ? & ? & Hall). split_and!; simpl; try done.
      * by destruct (versions (tree m)).
      * apply Forall_app. split; [done|]. by apply Forall_singleton.
    + by rewrite length_insert.
    + rewrite length_app. simpl. lia.
    + apply Forall_app. split.
      * eapply Forall_impl; [exact Hnone|]. intros r Hr q Hq Hge.
        apply (Hr q Hq). lia.
      * apply Forall_singleton. intros q Hq Hge. rewrite Hl in Hq.
        apply list_elem_of_fmap in Hq as (q0 & -> & Hq0).
        eapply Forall_forall in Hnone; [|exact Hin].
        replace (target 0 (max_branches - 1) (next_idx m)) with (next_idx m) in *
          by (unfold target; lia).
        destruct (decide (q0.1 = next_idx m)) as [Heq|Hne]; simpl in Hge; [lia|].
        apply (Hnone q0 Hq0). lia.
  - rewrite (add_branch_invalid max_branches) by (try done; lia).
    destruct Hok as (Htree & Hlen & Hidx & Hvers & Hcur & Hnone).
    unfold manager_ok. split_and!; simpl; try done; try lia.
    by rewrite length_insert.
Qed.

Lemma tracking_ok max_branches m : tracking max_branches m → manager_ok max_branches m.
Proof.
  induction 1 as [depth m Hinit|m p res from_version _ IH].
  - by apply manager_init_ok in Hinit as [? _].
  - by apply add_branch_ok.
Qed.

Lemma get_branch_result_inside max_branches m version idx :
  manager_ok max_branches m → valid_version (tree m) version →
  0 ≤ idx < max_branches →
  ∃ root x, versions (tree m) !! Z.to_nat version = Some root ∧
            _query root idx idx = Ok [x] ∧
            get_branch_result m version idx = Ok x.
Proof.
  intros (Hok & _) Hv Hidx.
  destruct (query_valid _ _ _ idx idx Hok Hv) as (root & Hroot & Hs & Hq).
  destruct (_query_point _ _ _ idx Hs) as [x Hx]; [lia|].
  exists root, x. repeat split; [done..|].
  unfold get_branch_result. by rewrite Hq, Hx.
Qed.

(** *** The claims about the branch tracker *)

(** C4 as the code has it: for every version of the tracker's tree,
    [get_all_results] returns as many values as slots are allocated now,
    the current [next_idx], whenever that version was created; with no
    slot allocated it returns the empty list. *)
Theorem C4_all_results_length max_branches m version :
  tracking max_branches m → valid_version (tree m) version →
  ∃ xs, get_all_results m version = Ok xs ∧
        Z.of_nat (length xs) = next_idx m ∧
        (next_idx m = 0 → xs = []).
Proof.
  intros Htr Hv. destruct (tracking_ok _ _ Htr) as (Hok & _ & Hidx & _).
  destruct (query_valid _ _ _ 0 (next_idx m - 1) Hok Hv) as (root & _ & Hs & Hq).
  unfold get_all_results. rewrite Hq, (_query_spec _ _ _ _ _ Hs).
  eexists; split; [done|].
  assert (Hlen : Z.of_nat (length (filter (within 0 (next_idx m - 1)) (leaves root)).*2)
                 = next_idx m).
  { rewrite length_fmap, <- (length_fmap fst).
    rewrite (filter_within_indices _ _ _ _ _ (leaves_indices _ _ _ Hs)).
    rewrite length_seqZ. lia. }
  split; [done|]. intros Hzero. apply nil_length_inv. lia.
Qed.

(** C5 as the code has it: with [max_branches ≤ next_idx], [add_branch]
    fails, with the [IndexError] of the write into the slot list, and
    the tracker is exactly what it was. Every [add_branch] that fails
    does so for that reason or because the version to fork from is
    outside [-len(versions), len(versions)), and leaves the tree with its
    version sequence, [next_idx] and [current_version] as they were, and
    every slot but slot [next_idx] as it was; in the second case slot
    [next_idx], written before [update] raised, holds the record of the
    failed call. *)
Theorem C5_add_branch_failure max_branches m p res from_version :
  tracking max_branches m →
  (max_branches ≤ next_idx m →
   add_branch m p res from_version = (m, Raise IndexError)) ∧
  (∀ m' e, add_branch m p res from_version = (m', Raise e) →
     e = IndexError ∧
     tree m' = tree m ∧ next_idx m' = next_idx m ∧
     current_version m' = current_version m ∧
     length (branch_params m') = length (branch_params m) ∧
     (∀ i, i ≠ Z.to_nat (next_idx m) →
           branch_params m' !! i = branch_params m !! i) ∧
     ((max_branches ≤ next_idx m ∧ m' = m) ∨
      (next_idx m < max_branches ∧
       (parent_version m from_version < - Z.of_nat (length (versions (tree m))) ∨
        Z.of_nat (length (versions (tree m))) ≤ parent_version m from_version) ∧
       branch_params m'
         = <[Z.to_nat (next_idx m) := Some {| params := p; result_of := res |}]>
             (branch_params m)))).
Proof.
  intros Htr. pose proof (tracking_ok _ _ Htr) as Hok.
  split; [by apply add_branch_capacity|]. intros m' e.
  destruct (Z_lt_le_dec (next_idx m) max_branches) as [Hfree|Hcap].
  2: { rewrite (add_branch_capacity max_branches) by done.
       intros [= <- <-]. split_and!; try done. by left. }
  destruct (decide (- Z.of_nat (length (versions (tree m)))
                      ≤ parent_version m from_version
                      < Z.of_nat (length (versions (tree m))))) as [Hv|Hv].
  - by destruct (add_branch_success _ _ p res from_version Hok Hfree Hv)
      as (? & ? & _ & _ & _ & _ & ->).
  - rewrite (add_branch_invalid max_branches) by (try done; lia).
    intros [= <- <-]. split_and!; simpl; try done.
    + by rewrite length_insert.
    + intros i Hi. by rewrite list_lookup_insert_ne.
    + right. split_and!; [done|lia|done].
Qed.

(** C7 as the code has it: for a valid version, [get_branch_result]
    returns the value of leaf [idx] of that version whenever
    [0 ≤ idx < max_branches], which is [None], the unset value, for every
    slot that is not allocated yet, and raises [IndexError] only for an
    [idx] outside [0, max_branches). The leaf values follow the ancestry:
    the version a successful [add_branch] creates holds the new result in
    the new slot and in every other slot what the version it forked from
    holds, and the versions that existed keep their values. *)
Theorem C7_branch_result max_branches m version idx :
  tracking max_branches m → valid_version (tree m) version →
  (0 ≤ idx < max_branches → ∃ x, get_branch_result m version idx = Ok x) ∧
  (next_idx m ≤ idx < max_branches → get_branch_result m version idx = Ok None) ∧
  (idx < 0 ∨ max_branches ≤ idx →
   get_branch_result m version idx = Raise IndexError) ∧
  (∀ p res from_version m' new_version,
     add_branch m p res from_version = (m', Ok new_version) →
     get_branch_result m' new_version (next_idx m) = Ok res ∧
     (idx ≠ next_idx m →
      get_branch_result m' new_version idx
        = get_branch_result m (parent_version m from_version) idx) ∧
     get_branch_result m' version idx = get_branch_result m version idx).
Proof.
  intros Htr Hv. pose proof (tracking_ok _ _ Htr) as Hok. split_and!.
  - intros Hidx.
    destruct (get_branch_result_inside _ _ _ _ Hok Hv Hidx) as (_ & x & _ & _ & ->).
    by exists x.
  - intros Hidx.
    destruct (get_branch_result_inside _ m version idx Hok Hv)
      as (root & x & Hroot & Hq & ->); [destruct Hok as (_ & _ & ? & _); lia|].
    destruct Hok as (Htree & _ & _ & _ & _ & Hnone).
    destruct (query_valid _ _ _ idx idx Htree Hv) as (root0 & Hroot0 & Hs & _).
    rewrite Hroot in Hroot0. injection Hroot0 as <-.
    rewrite (_query_spec _ _ _ _ _ Hs) in Hq.
    eapply Forall_forall in Hnone; [|by eapply list_elem_of_lookup_2].
    destruct (filter (within idx idx) (leaves root)) as [|q qs] eqn:Hf; [done|].
    assert (Hq' : q ∈ filter (within idx idx) (leaves root)) by (rewrite Hf; left).
    apply list_elem_of_filter in Hq' as [Hw Hin]. unfold within in Hw.
    injection Hq as <- _. f_equal. apply (Hnone q Hin). lia.
  - intros Hidx. destruct Hok as (Htree & _).
    destruct (query_valid _ _ _ idx idx Htree Hv) as (root & _ & Hs & Hq).
    unfold get_branch_result. rewrite Hq, (_query_outside _ _ _ _ _ Hs) by lia.
    done.
  - intros p res from_version m' new_version Hadd.
    destruct (Z_lt_le_dec (next_idx m) max_branches) as [Hfree|Hcap].
    2: { by rewrite (add_branch_capacity max_branches) in Hadd. }
    destruct (decide (- Z.of_nat (length (versions (tree m)))
                        ≤ parent_version m from_version
                        < Z.of_nat (length (versions (tree m))))) as [Hp|Hp].
    2: { by rewrite (add_branch_invalid max_branches) in Hadd by (try done; lia). }
    destruct (add_branch_success _ _ p res from_version Hok Hfree Hp)
      as (root & root' & Hget & _ & Hs & Hup & Hadd').
    rewrite Hadd' in Hadd. injection Hadd as <- <-.
    destruct Hok as (_ & _ & Hn & _).
    unfold get_branch_result. simpl. rewrite !query_new_version. split_and!.
    + pose proof (_update_hit _ _ _ _ _ _ Hs Hup) as Hhit.
      replace (target 0 (max_branches - 1) (next_idx m)) with (next_idx m) in Hhit
        by (unfold target; lia).
      by rewrite Hhit.
    + intros Hne. unfold query. rewrite Hget. simpl.
      rewrite (_update_miss _ _ _ _ _ _ idx idx Hs Hup); [done|].
      unfold target. lia.
    + unfold query. simpl. by rewrite list_getitem_app.
Qed.

End TrackerFacts.

(** ** The heap embedding and the value embedding agree *)

Section HeapFacts.
Context {V : Type}.
Local Abbreviation value := (option V).
Local Abbreviation Node := (PersistentSegmentTreeNode V).
Local Abbreviation Tree := (PersistentSegmentTree V).
Local Abbreviation heap := (list (Heap.cell V)).
Implicit Types (node : Node) (h : heap) (a d : nat) (v : value).

Lemma repr_app h h' a node : repr h a node → repr (h ++ h') a node.
Proof.
  revert a. induction node as [l r v|l r v lc IHl rc IHr]; intros a; simpl.
  - apply lookup_app_l_Some.
  - intros (al & ar & Ha & Hl & Hr). exists al, ar.
    split_and!; [by apply lookup_app_l_Some|by apply IHl|by apply IHr].
Qed.

Lemma reach_app h h' a d : Heap.reach h a d → Heap.reach (h ++ h') a d.
Proof.
  induction 1 as [a|a c b d Ha Hc _ IH|a c b d Ha Hc _ IH].
  - apply Heap.reach_self.
  - eapply Heap.reach_left; [by apply lookup_app_l_Some|done..].
  - eapply Heap.reach_right; [by apply lookup_app_l_Some|done..].
Qed.

(** What is reachable from a represented tree lies in the heap that
    represents it, however the heap has grown since. *)
Lemma reach_repr h h' a node d :
  repr h a node → Heap.reach (h ++ h') a d → Heap.reach h a d.
Proof.
  revert a. induction node as [l r v|l r v lc IHl rc IHr]; intros a; simpl.
  - intros Ha Hreach. pose proof (lookup_app_l_Some _ h' _ _ Ha) as Ha'.
    inversion Hreach as [|? c b ? Hc Hb _|? c b ? Hc Hb _]; subst.
    + apply Heap.reach_self.
    + rewrite Ha' in Hc. by injection Hc as <-.
    + rewrite Ha' in Hc. by injection Hc as <-.
  - intros (al & ar & Ha & Hl & Hr) Hreach.
    pose proof (lookup_app_l_Some _ h' _ _ Ha) as Ha'.
    inversion Hreach as [|? c b ? Hc Hb Hd|? c b ? Hc Hb Hd]; subst.
    + apply Heap.reach_self.
    + rewrite Ha' in Hc. injection Hc as <-. simpl in Hb. injection Hb as <-.
      eapply Heap.reach_left; [done..|]. by apply IHl.
    + rewrite Ha' in Hc. injection Hc as <-. simpl in Hb. injection Hb as <-.
      eapply Heap.reach_right; [done..|]. by apply IHr.
Qed.

(** Only allocated objects are reachable. *)
Lemma reach_bound h a node d :
  repr h a node → Heap.reach h a d → (d < length h)%nat.
Proof.
  revert a. induction node as [l r v|l r v lc IHl rc IHr]; intros a; simpl.
  - intros Ha Hreach.
    inversion Hreach as [|? c b ? Hc Hb _|? c b ? Hc Hb _]; subst.
    + by eapply lookup_lt_Some.
    + rewrite Ha in Hc. by injection Hc as <-.
    + rewrite Ha in Hc. by injection Hc as <-.
  - intros (al & ar & Ha & Hl & Hr) Hreach.
    inversion Hreach as [|? c b ? Hc Hb Hd|? c b ? Hc Hb Hd]; subst.
    + by eapply lookup_lt_Some.
    + rewrite Ha in Hc. injection Hc as <-. injection Hb as <-. by eapply IHl.
    + rewrite Ha in Hc. injection Hc as <-. injection Hb as <-. by eapply IHr.
Qed.

Lemma lookup_new h (c : Heap.cell V) : (h ++ [c]) !! length h = Some c.
Proof. by rewrite lookup_app_r, Nat.sub_diag by lia. Qed.

Lemma reach_new_leaf h l r v d :
  Heap.reach (h ++ [Heap.Cell l r v None None]) (length h) d → d = length h.
Proof.
  intros Hreach. inversion Hreach as [|? c b ? Hc Hb _|? c b ? Hc Hb _]; subst.
  - done.
  - rewrite lookup_new in Hc. by injection Hc as <-.
  - rewrite lookup_new in Hc. by injection Hc as <-.
Qed.

(** [Heap._update] does what [_update] does, on a heap that only grows:
    it allocates one cell per visited node, the result is the last of
    them, and whatever else the result reaches was reachable before. *)
Lemma heap_node_init depth h (c : Heap.cell V) :
  (1 ≤ depth)%nat →
  Heap.PersistentSegmentTreeNode__init__ depth h c = Ok (Heap.new_node h c).
Proof. intros Hd. by destruct depth as [|depth]; [lia|]. Qed.

Lemma heap_build_small depth l r h :
  (depth ≤ 1)%nat → Heap._build (V:=V) depth l r h = Raise RecursionError.
Proof.
  intros Hd. destruct depth as [|[|depth]]; [done| |lia]. simpl.
  by destruct (l =? r).
Qed.

Lemma heap_build_S depth l r h :
  (1 ≤ depth)%nat →
  Heap._build (V:=V) (S depth) l r h
  = if l =? r then Ok (Heap.new_node h (Heap.Cell l r None None None))
    else
      let m := (l + r) `div` 2 in
      '(left_child, h) ← Heap._build depth l m h;
      '(right_child, h) ← Heap._build depth (m + 1) r h;
      Ok (Heap.new_node h
            (Heap.Cell l r None (Some left_child) (Some right_child))).
Proof.
  intros Hd. simpl. destruct (l =? r); [by apply heap_node_init|]. simpl.
  destruct (Heap._build depth l _ h) as [[al h1]|]; [|done]. simpl.
  destruct (Heap._build depth _ r h1) as [[ar h2]|]; [|done]. simpl.
  by apply heap_node_init.
Qed.

Lemma _update_refines depth h a node idx v node' :
  repr h a node → _update node idx v = Ok node' → (height node + 1 ≤ depth)%nat →
  ∃ h_new a',
    Heap._update depth (Some a) idx v h = Ok (a', h ++ h_new) ∧
    repr (h ++ h_new) a' node' ∧
    length h_new = path_length node idx ∧
    (length h ≤ a' < length h + length h_new)%nat ∧
    (∀ d, Heap.reach (h ++ h_new) a' d → (length h ≤ d)%nat ∨ Heap.reach h a d) ∧
    (∀ d, (length h ≤ d < length h + length h_new)%nat →
          Heap.reach (h ++ h_new) a' d).
Proof.
  revert depth h a node'.
  induction node as [l r v0|l r v0 lc IHl rc IHr]; intros depth h a node' Hrepr Hup Hd.
  - destruct depth as [|depth]; [simpl in Hd; lia|].
    simpl in Hrepr, Hup. simpl. rewrite Hrepr. simpl.
    destruct (Z.eqb_spec l r) as [->|Hne]; [|by destruct (idx <=? _)].
    rewrite heap_node_init by (simpl in Hd; lia).
    injection Hup as <-. exists [Heap.Cell r r v None None], (length h).
    split_and!; simpl; [done|apply lookup_new|done|lia|lia| |].
    + intros d Hreach. apply reach_new_leaf in Hreach. left; lia.
    + intros d Hrange. replace d with (length h) by lia. apply Heap.reach_self.
  - destruct depth as [|depth]; [simpl in Hd; lia|].
    simpl in Hrepr. destruct Hrepr as (al & ar & Ha & Hl & Hr).
    simpl in Hup, Hd. simpl. rewrite Ha. simpl.
    destruct (Z.eqb_spec l r) as [->|Hne].
    { rewrite heap_node_init by lia.
      injection Hup as <-. exists [Heap.Cell r r v None None], (length h).
      split_and!; simpl; [done|apply lookup_new|done|lia|lia| |].
      + intros d Hreach. apply reach_new_leaf in Hreach. left; lia.
      + intros d Hrange. replace d with (length h) by lia. apply Heap.reach_self. }
    destruct (Z.leb_spec idx ((l + r) `div` 2)) as [Hle|Hgt].
    + destruct (_update lc idx v) as [lc'|] eqn:Hlc; [|done].
      simpl in Hup. injection Hup as <-.
      destruct (IHl depth h al lc' Hl eq_refl)
        as (h1 & al' & Hrun & Hrepr' & Hlen & Hal' & Hshare & Hnew); [lia|].
      rewrite Hrun. simpl. rewrite (lookup_app_l_Some _ h1 _ _ Ha). simpl.
      rewrite heap_node_init by lia. unfold Heap.new_node.
      exists (h1 ++ [Heap.Cell l r v0 (Some al') (Some ar)]), (length (h ++ h1)).
      rewrite !app_assoc. split_and!.
      * done.
      * simpl. exists al', ar.
        split_and!; [apply lookup_new|by apply repr_app|by do 2 apply repr_app].
      * rewrite length_app. simpl. lia.
      * rewrite length_app. lia.
      * rewrite !length_app. simpl. lia.
      * intros d Hreach.
        inversion Hreach as [|? c b ? Hc Hb Hrest|? c b ? Hc Hb Hrest]; subst.
        -- left. rewrite length_app. lia.
        -- rewrite lookup_new in Hc. injection Hc as <-. injection Hb as <-.
           apply (reach_repr _ _ _ _ _ Hrepr') in Hrest.
           destruct (Hshare d Hrest) as [|Hold]; [by left|]. right.
           by eapply Heap.reach_left.
        -- rewrite lookup_new in Hc. injection Hc as <-. injection Hb as <-.
           rewrite <- app_assoc in Hrest.
           apply (reach_repr _ _ _ _ _ Hr) in Hrest. right.
           by eapply Heap.reach_right.
      * intros d Hrange. rewrite !length_app in Hrange. simpl in Hrange.
        destruct (decide (d = length (h ++ h1))) as [->|Hnot];
          [apply Heap.reach_self|].
        eapply Heap.reach_left; [apply lookup_new|done|].
        apply reach_app, Hnew. rewrite length_app in Hnot. lia.
    + destruct (_update rc idx v) as [rc'|] eqn:Hrc; [|done].
      simpl in Hup. injection Hup as <-.
      destruct (IHr depth h ar rc' Hr eq_refl)
        as (h1 & ar' & Hrun & Hrepr' & Hlen & Har' & Hshare & Hnew); [lia|].
      rewrite Hrun. simpl. rewrite (lookup_app_l_Some _ h1 _ _ Ha). simpl.
      rewrite heap_node_init by lia. unfold Heap.new_node.
      exists (h1 ++ [Heap.Cell l r v0 (Some al) (Some ar')]), (length (h ++ h1)).
      rewrite !app_assoc. split_and!.
      * done.
      * simpl. exists al, ar'.
        split_and!; [apply lookup_new|by do 2 apply repr_app|by apply repr_app].
      * rewrite length_app. simpl. lia.
      * rewrite length_app. lia.
      * rewrite !length_app. simpl. lia.
      * intros d Hreach.
        inversion Hreach as [|? c b ? Hc Hb Hrest|? c b ? Hc Hb Hrest]; subst.
        -- left. rewrite length_app. lia.
        -- rewrite lookup_new in Hc. injection Hc as <-. injection Hb as <-.
           rewrite <- app_assoc in Hrest.
           apply (reach_repr _ _ _ _ _ Hl) in Hrest. right.
           by eapply Heap.reach_left.
        -- rewrite lookup_new in Hc. injection Hc as <-. injection Hb as <-.
           apply (reach_repr _ _ _ _ _ Hrepr') in Hrest.
           destruct (Hshare d Hrest) as [|Hold]; [by left|]. right.
           by eapply Heap.reach_right.
      * intros d Hrange. rewrite !length_app in Hrange. simpl in Hrange.
        destruct (decide (d = length (h ++ h1))) as [->|Hnot];
          [apply Heap.reach_self|].
        eapply Heap.reach_right; [apply lookup_new|done|].
        apply reach_app, Hnew. rewrite length_app in Hnot. lia.
Qed.

Lemma _build_refines depth l r h :
  match _build depth l r with
  | Ok node =>
      ∃ h_new a, Heap._build depth l r h = Ok (a, h ++ h_new) ∧
                 repr (h ++ h_new) a node ∧ (height node + 1 ≤ depth)%nat
  | Raise e => Heap._build (V:=V) depth l r h = Raise e
  end.
Proof.
  revert l r h. induction depth as [|depth IH]; intros l r h; [done|].
  destruct (decide (1 ≤ depth)%nat) as [Hd|Hd];
    [|by rewrite _build_small, heap_build_small by lia].
  rewrite (_build_S _ _ _ Hd), (heap_build_S _ _ _ _ Hd). simpl.
  destruct (Z.eqb_spec l r) as [->|Hne].
  { exists [Heap.Cell r r None None None], (length h).
    split_and!; simpl; [done|apply lookup_new|lia]. }
  pose proof (IH l ((l + r) `div` 2) h) as IHl.
  destruct (_build depth l _) as [lc|e]; simpl; [|by rewrite IHl].
  destruct IHl as (h1 & al & -> & Hl & Hhl). simpl.
  pose proof (IH ((l + r) `div` 2 + 1) r (h ++ h1)) as IHr.
  destruct (_build depth _ r) as [rc|e]; simpl; [|by rewrite IHr].
  destruct IHr as (h2 & ar & -> & Hr & Hhr). simpl.
  exists (h1 ++ h2 ++ [Heap.Cell l r None (Some al) (Some ar)]),
         (length ((h ++ h1) ++ h2)).
  rewrite !app_assoc. split_and!.
  - done.
  - simpl. exists al, ar.
    split_and!; [apply lookup_new|by do 2 apply repr_app|by apply repr_app].
  - simpl. lia.
Qed.

Lemma _query_refines depth h a node l0 r0 l r :
  shaped l0 r0 node → repr h a node → (height node ≤ depth)%nat →
  Heap._query depth (Some a) l r h = _query node l r.
Proof.
  revert depth a l0 r0.
  induction node as [nl nr v|nl nr v lc IHl rc IHr]; intros depth a l0 r0 Hs Hrepr Hd.
  - destruct depth as [|depth]; [simpl in Hd; lia|].
    destruct Hs as (-> & -> & ->). simpl in Hrepr. simpl. rewrite Hrepr. simpl.
    rewrite Z.eqb_refl, Z.gtb_ltb.
    destruct (Z.ltb_spec r0 l), (Z.ltb_spec r r0), (Z.leb_spec l r0),
      (Z.leb_spec r0 r); simpl; try done; lia.
  - destruct depth as [|depth]; [simpl in Hd; lia|].
    destruct Hs as (-> & -> & Hlt & Hsl & Hsr).
    destruct Hrepr as (al & ar & Ha & Hl & Hr). simpl in Hd.
    simpl. rewrite Ha. simpl.
    rewrite (IHl depth al _ _ Hsl Hl), (IHr depth ar _ _ Hsr Hr) by lia.
    done.
Qed.

Lemma _update_height node idx v node' :
  _update node idx v = Ok node' → (height node' ≤ height node)%nat.
Proof.
  revert node'. induction node as [l r v0|l r v0 lc IHl rc IHr]; intros node'; simpl.
  - destruct (l =? r); [by intros [= <-]|by destruct (idx <=? _)].
  - destruct (l =? r); [intros [= <-]; simpl; lia|].
    destruct (idx <=? _).
    + destruct (_update lc idx v) as [lc'|]; [|done]. intros [= <-].
      specialize (IHl _ eq_refl). simpl. lia.
    + destruct (_update rc idx v) as [rc'|]; [|done]. intros [= <-].
      specialize (IHr _ eq_refl). simpl. lia.
Qed.

(** The number of nodes on the way to a leaf of a well-shaped tree with
    [s] leaves lies between [⌊log2 s⌋ + 1] and [⌈log2 s⌉ + 1]. *)
Lemma path_length_pow l r node idx :
  shaped l r node →
  (1 ≤ path_length node idx)%nat ∧
  r - l + 1 < 2 ^ Z.of_nat (path_length node idx) ∧
  2 ^ (Z.of_nat (path_length node idx) - 2) < r - l + 1.
Proof.
  revert l r. induction node as [nl nr v|nl nr v lc IHl rc IHr]; intros l r Hs.
  - destruct Hs as (-> & -> & ->). simpl. lia.
  - destruct Hs as (-> & -> & Hlt & Hl & Hr). simpl.
    destruct (Z.eqb_spec l r) as [|_]; [lia|].
    pose proof (mid_bounds l r) as Hm.
    assert (Hstep : ∀ k s' : Z, 1 ≤ k → s' < 2 ^ k → 2 ^ (k - 2) < s' →
              r - l + 1 ≤ 2 * s' + 1 → 2 * s' ≤ r - l + 2 →
              r - l + 1 < 2 ^ (k + 1) ∧ 2 ^ (k + 1 - 2) < r - l + 1).
    { intros k s' Hk Hup Hlow Hs1 Hs2. rewrite Z.pow_add_r by lia. split; [lia|].
      destruct (decide (k = 1)) as [->|Hk1]; [simpl; lia|].
      replace (k + 1 - 2) with (Z.succ (k - 2)) by lia.
      rewrite Z.pow_succ_r by lia. lia. }
    destruct (idx <=? _).
    + destruct (IHl _ _ Hl) as (Hk & Hup & Hlow). split; [lia|].
      rewrite Nat2Z.inj_succ, <- Z.add_1_r.
      apply (Hstep _ ((l + r) `div` 2 - l + 1)); lia.
    + destruct (IHr _ _ Hr) as (Hk & Hup & Hlow). split; [lia|].
      rewrite Nat2Z.inj_succ, <- Z.add_1_r.
      apply (Hstep _ (r - ((l + r) `div` 2 + 1) + 1)); lia.
Qed.

Lemma path_length_log2 n node idx :
  shaped 0 (n - 1) node →
  Z.log2 n + 1 ≤ Z.of_nat (path_length node idx) ≤ Z.log2_up n + 1.
Proof.
  intros Hs. pose proof (shaped_range _ _ _ Hs) as (_ & _ & Hn).
  destruct (path_length_pow _ _ _ idx Hs) as (Hk & Hup & Hlow).
  replace (n - 1 - 0 + 1) with n in * by lia. split.
  - apply Z.log2_lt_pow2 in Hup; lia.
  - apply Z.log2_up_lt_pow2 in Hlow; lia.
Qed.

Lemma list_getitem_Forall2 {A B} (R : A → B → Prop) xs ys i :
  Forall2 R xs ys →
  match list_getitem xs i, list_getitem ys i with
  | Ok x, Ok y => R x y ∧ y ∈ ys
  | Raise e, Raise e' => e = e'
  | _, _ => False
  end.
Proof.
  intros HR. unfold list_getitem. rewrite <- (Forall2_length _ _ _ HR).
  destruct (py_subscript _ i) as [j|e] eqn:Hj; simpl; [|done].
  apply py_subscript_Ok in Hj as [Hj _].
  destruct (lookup_lt_is_Some_2 xs j) as [x Hx]; [lia|].
  destruct (lookup_lt_is_Some_2 ys j) as [y Hy];
    [rewrite <- (Forall2_length _ _ _ HR); lia|].
  rewrite Hx, Hy. split; [by eapply Forall2_lookup_lr|].
  by eapply list_elem_of_lookup_2.
Qed.

Lemma init_refines depth n h s :
  Heap.__init__ depth n h = Ok s →
  ∃ t, PersistentSegmentTree__init__ depth n = Ok t ∧ heap_inv depth n s t.
Proof.
  unfold Heap.__init__, PersistentSegmentTree__init__.
  destruct depth as [|[|depth]]; [done..|].
  pose proof (_build_refines depth 0 (n - 1) h) as Hb.
  destruct (_build depth 0 (n - 1)) as [root|e] eqn:Hroot; [|by rewrite Hb].
  destruct Hb as (h_new & a & -> & Hrepr & Hh). simpl. intros [= <-].
  eexists; split; [done|]. unfold heap_inv, stands_for. split_and!; simpl.
  - apply (built_init n (S (S depth))). unfold PersistentSegmentTree__init__.
    by rewrite Hroot.
  - done.
  - by apply Forall2_cons.
  - apply Forall_singleton. lia.
Qed.

Lemma heap_inv_depth depth n (s : heap * Heap.PersistentSegmentTree) t :
  heap_inv depth n s t → (4 ≤ depth)%nat.
Proof.
  intros (Hb & _ & Hh). destruct (built_ok _ _ Hb) as (_ & _ & Hne & _).
  destruct (versions t) as [|root roots]; [done|].
  apply Forall_cons in Hh as [Hroot _].
  assert (1 ≤ height root)%nat by (destruct root; simpl; lia). lia.
Qed.

(** One [update] in both embeddings, from a version id the list
    subscript accepts. *)
Lemma update_sim depth n h self t version idx v :
  heap_inv depth n (h, self) t →
  - Z.of_nat (length (Heap.versions self)) ≤ version
    < Z.of_nat (length (Heap.versions self)) →
  ∃ a root root' h_new a',
    list_getitem (Heap.versions self) version = Ok a ∧
    repr h a root ∧ shaped 0 (n - 1) root ∧
    repr (h ++ h_new) a' root' ∧
    length h_new = path_length root idx ∧
    (∀ d, Heap.reach (h ++ h_new) a' d → (length h ≤ d)%nat ∨ Heap.reach h a d) ∧
    (∀ d, (length h ≤ d < length h + length h_new)%nat →
          Heap.reach (h ++ h_new) a' d) ∧
    Heap.update depth (h, self) version idx v =
      ((h ++ h_new, {| Heap.size := Heap.size self;
                       Heap.versions := Heap.versions self ++ [a'] |}),
       Ok (Z.of_nat (length (Heap.versions self)))) ∧
    update t version idx v =
      ({| size := size t; versions := versions t ++ [root'] |},
       Ok (Z.of_nat (length (Heap.versions self)))) ∧
    (height root' + 3 ≤ depth)%nat.
Proof.
  intros (Hb & (Hsz & Hrepr) & Hh) Hv. simpl in Hsz, Hrepr.
  pose proof (built_ok _ _ Hb) as Hok.
  pose proof (Forall2_length _ _ _ Hrepr) as Hlen.
  destruct (update_success n t version idx v Hok)
    as (root & root' & Hget & Hs & Hup & _ & Hupd); [lia|].
  pose proof (list_getitem_Forall2 _ _ _ version Hrepr) as Hboth.
  rewrite Hget in Hboth.
  destruct (list_getitem (Heap.versions self) version) as [a|] eqn:Ha; [|done].
  destruct Hboth as [Hra Hin].
  eapply Forall_forall in Hh; [|exact Hin].
  destruct depth as [|depth]; [lia|].
  destruct (_update_refines depth h a root idx v root' Hra Hup)
    as (h_new & a' & Hrun & Hrepr' & Hcount & _ & Hshare & Hnew); [lia|].
  exists a, root, root', h_new, a'. split_and!; try done.
  - unfold Heap.update. rewrite Ha. simpl. rewrite Hrun. do 3 f_equal.
    rewrite length_app. simpl. lia.
  - by rewrite Hupd, Hlen.
  - pose proof (_update_height _ _ _ _ Hup). lia.
Qed.

Lemma update_refines depth n (s : heap * Heap.PersistentSegmentTree) t version idx v :
  heap_inv depth n s t →
  heap_inv depth n (Heap.update depth s version idx v).1 (update t version idx v).1 ∧
  (Heap.update depth s version idx v).2 = (update t version idx v).2.
Proof.
  intros Hinv. destruct s as [h self].
  pose proof Hinv as (Hb & (Hsz & Hrepr) & Hh). simpl in Hsz, Hrepr.
  pose proof (Forall2_length _ _ _ Hrepr) as Hlen.
  destruct (decide (- Z.of_nat (length (Heap.versions self)) ≤ version
                      < Z.of_nat (length (Heap.versions self)))) as [Hv|Hv].
  - destruct (update_sim depth n h self t version idx v Hinv Hv)
      as (a & root & root' & h_new & a' & _ & _ & _ & Hrepr' & _ & _ & _ & -> & Hupd & Hh').
    pose proof (built_update n t version idx v Hb) as Hb'.
    rewrite Hupd in Hb' |- *. simpl in Hb' |- *. split; [|done].
    unfold heap_inv, stands_for. split_and!; simpl; try done.
    + apply Forall2_app; [|by apply Forall2_cons].
      eapply Forall2_impl; [exact Hrepr|]. intros ? ?. apply repr_app.
    + apply Forall_app. split; [done|]. by apply Forall_singleton.
  - pose proof (heap_inv_depth _ _ _ _ Hinv).
    destruct depth as [|depth]; [lia|].
    unfold Heap.update. rewrite list_getitem_outside by lia. simpl.
    by rewrite update_failure by lia.
Qed.

Lemma stored_inv depth n (s : heap * Heap.PersistentSegmentTree) :
  Heap.stored depth n s → ∃ t, heap_inv depth n s t.
Proof.
  induction 1 as [h s Hinit|s version idx v _ [t IH]].
  - destruct (init_refines _ _ _ _ Hinit) as (t & _ & Ht). by exists t.
  - eexists. by apply update_refines.
Qed.

Lemma query_refines depth n (s : heap * Heap.PersistentSegmentTree) t version l r :
  heap_inv depth n s t → Heap.query depth s version l r = query t version l r.
Proof.
  destruct s as [h self]. intros Hinv. pose proof (heap_inv_depth _ _ _ _ Hinv).
  destruct Hinv as (Hb & (Hsz & Hrepr) & Hh). simpl in Hsz, Hrepr.
  destruct (built_ok _ _ Hb) as (_ & _ & _ & Hall).
  destruct depth as [|depth]; [lia|].
  unfold Heap.query, query.
  pose proof (list_getitem_Forall2 _ _ _ version Hrepr) as Hboth.
  destruct (list_getitem (Heap.versions self) version) as [a|e],
    (list_getitem (versions t) version) as [root|e']; simpl; try done.
  - destruct Hboth as [Hra Hin].
    eapply Forall_forall in Hall; [|exact Hin].
    eapply Forall_forall in Hh; [|exact Hin].
    eapply _query_refines; [done..|lia].
  - by subst.
Qed.

(** On the heap too an update leaves every cell and every earlier
    version as they were. *)
Lemma heap_update_frame depth n (s : heap * Heap.PersistentSegmentTree)
    version idx v :
  Heap.stored depth n s →
  (∃ h_new, (Heap.update depth s version idx v).1.1 = s.1 ++ h_new) ∧
  ∀ version0 l r,
    0 ≤ version0 < Z.of_nat (length (Heap.versions s.2)) →
    Heap.query depth (Heap.update depth s version idx v).1 version0 l r
      = Heap.query depth s version0 l r.
Proof.
  intros Hst. destruct (stored_inv _ _ _ Hst) as [t Hinv].
  destruct (update_refines _ _ _ _ version idx v Hinv) as [Hinv' _]. split.
  - destruct s as [h self].
    destruct (decide (- Z.of_nat (length (Heap.versions self)) ≤ version
                        < Z.of_nat (length (Heap.versions self)))) as [Hv|Hv].
    + destruct (update_sim depth n h self t version idx v Hinv Hv)
        as (? & ? & ? & h_new & ? & _ & _ & _ & _ & _ & _ & _ & -> & _).
      by exists h_new.
    + pose proof (heap_inv_depth _ _ _ _ Hinv).
      destruct depth as [|depth]; [lia|].
      unfold Heap.update. rewrite list_getitem_outside by lia. simpl.
      exists []. by rewrite app_nil_r.
  - intros version0 l r Hv0.
    rewrite (query_refines _ _ _ _ _ _ _ Hinv'), (query_refines _ _ _ _ _ _ _ Hinv).
    destruct Hinv as (_ & (_ & Hrepr) & _).
    rewrite (Forall2_length _ _ _ Hrepr) in Hv0.
    destruct (update_versions t version idx v) as [ys Hys].
    unfold query. rewrite Hys. by rewrite list_getitem_app.
Qed.

(** *** The claim about sharing *)

(** C6 as the code has it: in a tree of size [n], an update of a valid
    version, at any index, allocates one node per node on the way from
    the root of that version to the target leaf, which is between
    [⌊log2 n⌋ + 1] and [⌈log2 n⌉ + 1] nodes; the heap is otherwise
    unchanged, every new node belongs to the new version, and every other
    node the new root reaches is, at the same address, a node the old
    root reaches. *)
Theorem C6_sharing depth n h self version idx x :
  Heap.stored depth n (h, self) →
  0 ≤ version < Z.of_nat (length (Heap.versions self)) →
  ∃ root node h_new new_root,
    Heap.versions self !! Z.to_nat version = Some root ∧
    Heap.update depth (h, self) version idx x =
      ((h ++ h_new, {| Heap.size := Heap.size self;
                       Heap.versions := Heap.versions self ++ [new_root] |}),
       Ok (Z.of_nat (length (Heap.versions self)))) ∧
    repr h root node ∧ length h_new = path_length node idx ∧
    Z.log2 n + 1 ≤ Z.of_nat (length h_new) ≤ Z.log2_up n + 1 ∧
    (∀ d, (length h ≤ d < length h + length h_new)%nat →
          Heap.reach (h ++ h_new) new_root d) ∧
    (∀ d, Heap.reach (h ++ h_new) new_root d →
          (length h ≤ d < length h + length h_new)%nat ∨ Heap.reach h root d).
Proof.
  intros Hst Hv. destruct (stored_inv _ _ _ Hst) as [t Hinv].
  destruct (update_sim depth n h self t version idx x Hinv)
    as (a & root & root' & h_new & a' & Ha & Hra & Hs & Hra' & Hcount & Hshare & Hnew
        & Hupd & _ & _); [lia|].
  destruct (list_getitem_valid _ _ Hv) as (a0 & Ha0 & Hget).
  rewrite Ha in Hget. injection Hget as <-.
  exists a, root, h_new, a'. split_and!; try done.
  - rewrite Hcount. by apply path_length_log2.
  - rewrite Hcount. by apply path_length_log2.
  - intros d Hreach. destruct (Hshare d Hreach) as [Hge|Hold]; [left|by right].
    split; [done|]. pose proof (reach_bound _ _ _ _ Hra' Hreach) as Hlt.
    rewrite length_app in Hlt. lia.
Qed.

End HeapFacts.

(** ** Further properties of the tree *)

Section MoreTreeFacts.
Context {V : Type}.
Local Abbreviation value := (option V).
Local Abbreviation Node := (PersistentSegmentTreeNode V).
Local Abbreviation Tree := (PersistentSegmentTree V).
Implicit Types (node root : Node) (t : Tree) (v x y : value).

(** What an update to the target [c] does to one indexed leaf. *)
Local Abbreviation put c x :=
  (λ p : Z * value, if decide (p.1 = c) then (p.1, x) else p).

Lemma put_put_ne c1 c2 x y (p : Z * value) :
  c1 ≠ c2 → put c2 y (put c1 x p) = put c1 x (put c2 y p).
Proof.
  intros Hne. destruct p as [i z]. simpl.
  repeat (destruct (decide _); simpl); try done; exfalso; lia.
Qed.

Lemma put_put_eq c x y (p : Z * value) : put c y (put c x p) = put c y p.
Proof.
  destruct p as [i z]. simpl.
  repeat (destruct (decide _); simpl); try done; exfalso; lia.
Qed.

Lemma update_leaves n t version idx x :
  built n t → valid_version t version →
  ∃ root root',
    versions t !! Z.to_nat version = Some root ∧
    shaped 0 (n - 1) root ∧ shaped 0 (n - 1) root' ∧
    update t version idx x =
      ({| size := size t; versions := versions t ++ [root'] |},
       Ok (Z.of_nat (length (versions t)))) ∧
    leaves root' = put (target 0 (n - 1) idx) x <$> leaves root.
Proof.
  intros Hb Hv. pose proof (built_ok _ _ Hb) as Hok.
  destruct (update_success n t version idx x Hok)
    as (root & root' & Hget & Hs & Hup & Hs' & Hupd);
    [unfold valid_version in Hv; lia|].
  destruct (list_getitem_valid _ _ Hv) as (root0 & Hroot0 & Hget0).
  rewrite Hget in Hget0. injection Hget0 as <-.
  destruct (_update_spec _ _ _ idx x Hs) as (? & Hup' & _ & Hl).
  rewrite Hup in Hup'. injection Hup' as <-.
  by exists root, root'.
Qed.

Lemma query_root n t version root l r :
  built n t → valid_version t version →
  versions t !! Z.to_nat version = Some root →
  shaped 0 (n - 1) root ∧
  query t version l r = Ok (filter (within l r) (leaves root)).*2.
Proof.
  intros Hb Hv Hroot.
  destruct (query_valid n t version l r (built_ok _ _ Hb) Hv)
    as (root0 & Hroot0 & Hs & Hq).
  rewrite Hroot in Hroot0. injection Hroot0 as <-.
  split; [done|]. by rewrite Hq, (_query_spec _ _ _ _ _ Hs).
Qed.

Lemma leaves_eq root root' n :
  (leaves root).*1 = seqZ 0 n → (leaves root').*1 = seqZ 0 n →
  (leaves root).*2 = (leaves root').*2 → leaves root = leaves root'.
Proof.
  intros H1 H1' H2.
  rewrite <- (zip_fst_snd (leaves root)), <- (zip_fst_snd (leaves root')).
  by rewrite H1, H1', H2.
Qed.

(** Two updates in a row, the second from the version the first made. *)
Lemma update_twice n t version i j x y :
  built n t → valid_version t version →
  ∃ root r1 r2,
    versions t !! Z.to_nat version = Some root ∧
    shaped 0 (n - 1) r2 ∧
    (update (update t version i x).1 (Z.of_nat (length (versions t))) j y).1
      = {| size := size t; versions := (versions t ++ [r1]) ++ [r2] |} ∧
    leaves r2 = put (target 0 (n - 1) j) y
                  <$> (put (target 0 (n - 1) i) x <$> leaves root).
Proof.
  intros Hb Hv.
  destruct (update_leaves n t version i x Hb Hv)
    as (root & r1 & Hroot & _ & _ & Hup1 & Hl1).
  pose proof (built_update n t version i x Hb) as Hb1. rewrite Hup1 in Hb1 |- *.
  simpl in Hb1 |- *.
  destruct (update_leaves n _ (Z.of_nat (length (versions t))) j y Hb1)
    as (r1' & r2 & Hr1 & _ & Hs2 & Hup2 & Hl2).
  { unfold valid_version. simpl. rewrite length_app. simpl. lia. }
  simpl in Hr1. rewrite Nat2Z.id, lookup_app_r, Nat.sub_diag in Hr1 by lia.
  injection Hr1 as <-. rewrite Hup2. simpl.
  exists root, r1, r2. by rewrite Hl2, Hl1.
Qed.

Lemma query_second_version t r1 r2 l r :
  query {| size := size t; versions := (versions t ++ [r1]) ++ [r2] |}
        (Z.of_nat (length (versions t)) + 1) l r = _query r2 l r.
Proof.
  unfold query. simpl.
  replace (Z.of_nat (length (versions t)) + 1)
    with (Z.of_nat (length (versions t ++ [r1])))
    by (rewrite length_app; simpl; lia).
  by rewrite list_getitem_last.
Qed.

(** X1, an update is a write into a copy of an array: read over the
    whole index range, the version an update creates is the version it
    started from with the entry of the target leaf replaced, and that
    version itself still reads as before. *)
Theorem X1_update_is_array_write n t version idx x :
  built n t → valid_version t version →
  ∃ t' xs,
    update t version idx x = (t', Ok (Z.of_nat (length (versions t)))) ∧
    query t version 0 (n - 1) = Ok xs ∧ length xs = Z.to_nat n ∧
    query t' version 0 (n - 1) = Ok xs ∧
    query t' (Z.of_nat (length (versions t))) 0 (n - 1)
      = Ok (<[Z.to_nat (target 0 (n - 1) idx) := x]> xs).
Proof.
  intros Hb Hv. pose proof (built_ok _ _ Hb) as (_ & Hn & _).
  destruct (update_leaves n t version idx x Hb Hv)
    as (root & root' & Hroot & Hs & Hs' & Hup & Hl).
  destruct (query_root n t version root 0 (n - 1) Hb Hv Hroot) as [_ Hq].
  pose proof (leaves_indices _ _ _ Hs) as Hidx.
  rewrite filter_all in Hq by (intros p Hp; by apply (leaves_bounds 0 (n - 1) root)).
  exists {| size := size t; versions := versions t ++ [root'] |}, (leaves root).*2.
  split_and!; [done|done| | |].
  - rewrite length_fmap, <- (length_fmap fst), Hidx, length_seqZ. lia.
  - rewrite <- Hq. unfold query. simpl. by rewrite list_getitem_app.
  - rewrite query_new_version, (query_full _ _ _ Hs'), Hl.
    rewrite (fmap_point_insert _ _ _ _ _ Hidx) by (unfold target; lia).
    do 2 f_equal. lia.
Qed.

Lemma _build_erase depth l r node :
  _build depth l r = Ok node → erase node = node.
Proof.
  revert l r node. induction depth as [|depth IH]; intros l r node; [done|].
  destruct (decide (1 ≤ depth)%nat) as [Hd|Hd];
    [rewrite (_build_S _ _ _ Hd)|by rewrite _build_small by lia].
  simpl. destruct (l =? r); [by intros [= <-]|].
  destruct (_build depth l _) as [lc|] eqn:Hlc; [|done].
  destruct (_build depth _ r) as [rc|] eqn:Hrc; [|done].
  intros [= <-]. simpl. by rewrite (IH _ _ _ Hlc), (IH _ _ _ Hrc).
Qed.

Lemma _update_erase l r node idx v node' :
  shaped l r node → _update node idx v = Ok node' → erase node' = erase node.
Proof.
  revert l r node'. induction node as [nl nr v0|nl nr v0 lc IHl rc IHr];
    intros l r node' Hs.
  - destruct Hs as (-> & -> & ->). simpl. rewrite Z.eqb_refl. by intros [= <-].
  - destruct Hs as (-> & -> & Hlt & Hl & Hr). simpl.
    destruct (Z.eqb_spec l r) as [|_]; [lia|]. destruct (idx <=? _).
    + destruct (_update lc idx v) as [lc'|] eqn:Hlc; [|done]. intros [= <-].
      simpl. by rewrite (IHl _ _ _ Hl eq_refl).
    + destruct (_update rc idx v) as [rc'|] eqn:Hrc; [|done]. intros [= <-].
      simpl. by rewrite (IHr _ _ _ Hr eq_refl).
Qed.

(** X2, the partition is static: every version of a tree, with what its
    leaves hold taken away, is the tree [_build] made, node for node: the
    same ranges and split points, and internal nodes without a value.
    Version 0 is that tree itself. *)
Theorem X2_shape_is_static n t :
  built n t →
  ∃ depth root0,
    _build depth 0 (n - 1) = Ok root0 ∧ versions t !! 0%nat = Some root0 ∧
    ∀ k root, versions t !! k = Some root → erase root = root0.
Proof.
  intros Hb. induction Hb as [depth t Hinit|t version idx v Hb IH].
  - apply init_unfold in Hinit as (depth' & root0 & _ & Hroot0 & ->).
    exists depth', root0. split_and!; [done..|].
    intros [|k] root; simpl; [|done]. intros [= <-]. by eapply _build_erase.
  - destruct IH as (depth & root0 & Hroot0 & Hzero & Hall).
    exists depth, root0. split; [done|]. pose proof (built_ok _ _ Hb) as Hok.
    destruct (decide (- Z.of_nat (length (versions t)) ≤ version
                        < Z.of_nat (length (versions t)))) as [Hv|Hv].
    2: { by rewrite update_failure by lia. }
    destruct (update_success n t version idx v Hok Hv)
      as (root & root' & Hget & Hs & Hup & _ & ->). simpl.
    split; [by apply lookup_app_l_Some|]. intros k r Hk.
    apply lookup_app_Some in Hk as [Hk|[_ Hk]]; [by eapply Hall|].
    apply list_lookup_singleton_Some in Hk as [_ <-].
    rewrite (_update_erase _ _ _ _ _ _ Hs Hup).
    destruct (list_getitem_inside _ _ Hv) as (root1 & Hin & Hget1).
    rewrite Hget in Hget1. injection Hget1 as <-.
    apply list_elem_of_lookup_1 in Hin as [k' Hk']. by eapply Hall.
Qed.

Lemma filter_within_split (xs : list (Z * value)) a n l m r :
  xs.*1 = seqZ a n → l ≤ m + 1 → m ≤ r →
  filter (within l r) xs
    = filter (within l m) xs ++ filter (within (m + 1) r) xs.
Proof.
  intros Hxs Hlm Hmr. revert a n Hxs.
  induction xs as [|p xs IH]; intros a n Hxs; [done|].
  assert (0 < n).
  { destruct (Z_lt_le_dec 0 n); [done|]. by rewrite seqZ_nil in Hxs by lia. }
  rewrite seqZ_cons in Hxs by done. simpl in Hxs. injection Hxs as Hp Hxs.
  change (xs.*1 = seqZ (Z.succ a) (Z.pred n)) in Hxs.
  rewrite !filter_cons, (IH _ _ Hxs).
  destruct (decide (within l r p)) as [Hw|Hw],
    (decide (within l m p)) as [Hw1|Hw1],
    (decide (within (m + 1) r p)) as [Hw2|Hw2];
    unfold within in *; try done; try lia.
  rewrite (filter_none (within l m) xs); [done|].
  intros q Hq. apply (list_elem_of_fmap_2 fst) in Hq.
  rewrite Hxs, elem_of_seqZ in Hq. unfold within. lia.
Qed.

(** X3, queries of adjacent ranges compose: for a valid version and
    [l - 1 ≤ m ≤ r], the query of [l, r] returns the result of the query
    of [l, m] followed by the result of the query of [m + 1, r]. *)
Theorem X3_query_concat n t version l m r :
  built n t → valid_version t version → l ≤ m + 1 → m ≤ r →
  ∃ xs ys, query t version l m = Ok xs ∧ query t version (m + 1) r = Ok ys ∧
           query t version l r = Ok (xs ++ ys).
Proof.
  intros Hb Hv Hlm Hmr. pose proof (built_ok _ _ Hb) as Hok.
  destruct (query_valid n t version l r Hok Hv) as (root & Hroot & Hs & _).
  destruct (query_root n t version root l m Hb Hv Hroot) as [_ ->].
  destruct (query_root n t version root (m + 1) r Hb Hv Hroot) as [_ ->].
  destruct (query_root n t version root l r Hb Hv Hroot) as [_ ->].
  do 2 eexists. split_and!; [done..|].
  by rewrite (filter_within_split _ _ _ l m r (leaves_indices _ _ _ Hs)), fmap_app.
Qed.

(** X4, updates of different leaves commute: applied one after the
    other to a valid version, in either order, two updates whose target
    leaves differ lead to versions that answer every query alike. *)
Theorem X4_updates_commute n t version i j x y l r :
  built n t → valid_version t version →
  target 0 (n - 1) i ≠ target 0 (n - 1) j →
  query (update (update t version i x).1 (Z.of_nat (length (versions t))) j y).1
        (Z.of_nat (length (versions t)) + 1) l r
  = query (update (update t version j y).1 (Z.of_nat (length (versions t))) i x).1
          (Z.of_nat (length (versions t)) + 1) l r.
Proof.
  intros Hb Hv Hne.
  destruct (update_twice n t version i j x y Hb Hv)
    as (root & r1 & r2 & Hroot & Hs2 & -> & Hl2).
  destruct (update_twice n t version j i y x Hb Hv)
    as (root' & r1' & r2' & Hroot' & Hs2' & -> & Hl2').
  rewrite Hroot in Hroot'. injection Hroot' as <-.
  rewrite !query_second_version.
  rewrite (_query_spec _ _ _ _ _ Hs2), (_query_spec _ _ _ _ _ Hs2'), Hl2, Hl2'.
  do 3 f_equal. rewrite <- !list_fmap_compose.
  apply list_fmap_ext. intros k p _. simpl. by apply put_put_ne.
Qed.

(** X5, the last write wins: two updates in a row with the same target
    leaf lead to a version that answers every query like the version the
    second update alone makes. *)
Theorem X5_last_write_wins n t version i j x y l r :
  built n t → valid_version t version →
  target 0 (n - 1) i = target 0 (n - 1) j →
  query (update (update t version i x).1 (Z.of_nat (length (versions t))) j y).1
        (Z.of_nat (length (versions t)) + 1) l r
  = query (update t version j y).1 (Z.of_nat (length (versions t))) l r.
Proof.
  intros Hb Hv Heq.
  destruct (update_twice n t version i j x y Hb Hv)
    as (root & r1 & r2 & Hroot & Hs2 & -> & Hl2).
  destruct (update_leaves n t version j y Hb Hv)
    as (root' & r1' & Hroot' & _ & Hs1' & -> & Hl1').
  rewrite Hroot in Hroot'. injection Hroot' as <-. simpl.
  rewrite query_second_version, query_new_version.
  rewrite (_query_spec _ _ _ _ _ Hs2), (_query_spec _ _ _ _ _ Hs1'), Hl2, Hl1', Heq.
  do 3 f_equal. rewrite <- !list_fmap_compose.
  apply list_fmap_ext. intros k p _. simpl. by apply put_put_eq.
Qed.

Lemma list_getitem_negative {A} (xs : list A) i :
  - Z.of_nat (length xs) ≤ i < 0 →
  list_getitem xs i = list_getitem xs (i + Z.of_nat (length xs)).
Proof.
  intros Hi. unfold list_getitem, py_subscript.
  destruct (Z.ltb_spec i 0); [|lia].
  destruct (Z.ltb_spec (i + Z.of_nat (length xs)) 0); [lia|]. done.
Qed.

(** X6, a negative version id counts from the newest version: with
    [-len(versions) ≤ version < 0], [query] and [update] do exactly what
    they do for the id [version + len(versions)]; [-1] is the version
    made last. *)
Theorem X6_negative_version t version idx x l r :
  - Z.of_nat (length (versions t)) ≤ version < 0 →
  query t version l r = query t (version + Z.of_nat (length (versions t))) l r ∧
  update t version idx x
    = update t (version + Z.of_nat (length (versions t))) idx x.
Proof.
  intros Hv. unfold query, update. by rewrite (list_getitem_negative _ _ Hv).
Qed.

(** X7, [query] fails only on the version id: outside
    [-len(versions), len(versions)) it raises [IndexError], inside it
    returns a list, whatever [l] and [r] are. *)
Theorem X7_query_failure n t version l r :
  built n t →
  (version < - Z.of_nat (length (versions t)) ∨
     Z.of_nat (length (versions t)) ≤ version →
   query t version l r = Raise IndexError) ∧
  (- Z.of_nat (length (versions t)) ≤ version < Z.of_nat (length (versions t)) →
   ∃ xs, query t version l r = Ok xs).
Proof.
  intros Hb. split.
  - intros Hv. unfold query. by rewrite list_getitem_outside.
  - intros Hv. destruct (built_ok _ _ Hb) as (_ & _ & _ & Hall).
    destruct (list_getitem_inside _ _ Hv) as (root & Hin & Hget).
    eapply Forall_forall in Hall; [|exact Hin].
    unfold query. rewrite Hget. simpl. rewrite (_query_spec _ _ _ _ _ Hall).
    by eexists.
Qed.

(** X8, what construction costs and how it fails: if
    [PersistentSegmentTree(size)] returns where [depth] nested calls are
    still allowed, then [1 ≤ size ≤ 2 ^ (depth - 3)]: the deepest chain of
    calls is [__init__], [⌈log2 size⌉ + 1] calls of [_build] and the
    [__init__] of a leaf, so the limit must leave [⌈log2 size⌉ + 3]
    levels at the least (the call of the class takes one more in the
    interpreter modelled here). If it does not return, it raises
    [RecursionError] and nothing else. *)
Theorem X8_construction_depth depth n :
  (∀ t : Tree, PersistentSegmentTree__init__ depth n = Ok t →
     1 ≤ n ≤ 2 ^ (Z.of_nat depth - 3) ∧
     Z.log2_up n + 3 ≤ Z.of_nat depth) ∧
  (∀ e, PersistentSegmentTree__init__ (V:=V) depth n = Raise e →
     e = RecursionError).
Proof.
  split; [|intros e; apply init_raises].
  intros t Hinit. pose proof (init_needs _ _ _ Hinit) as [Hn Hd].
  assert (Hlog : Z.log2_up n ≤ Z.of_nat depth - 4)
    by (apply Z.log2_up_le_pow2; lia).
  assert (2 ^ (Z.of_nat depth - 4) ≤ 2 ^ (Z.of_nat depth - 3)).
  { pose proof (Z.log2_up_nonneg n). apply Z.pow_le_mono_r; lia. }
  lia.
Qed.

End MoreTreeFacts.

(** ** Further properties of the branch tracker *)

Section MoreTrackerFacts.
Context {V P : Type}.
Local Abbreviation value := (option V).
Local Abbreviation Node := (PersistentSegmentTreeNode V).
Local Abbreviation Manager := (FlightSearchBranchManager V P).
Implicit Types (m : Manager) (res : value) (p : P).

(** X9, what the tracker keeps true: after any sequence of [add_branch]
    calls, failed ones included, [current_version] is the id of the
    newest version and equals [next_idx], the tree holds one version per
    allocated slot besides version 0, [next_idx] does not pass
    [max_branches], and the slot list has its [max_branches] entries. *)
Theorem X9_tracker_invariant max_branches m :
  tracking max_branches m →
  current_version m = next_idx m ∧
  Z.of_nat (length (versions (tree m))) = next_idx m + 1 ∧
  valid_version (tree m) (current_version m) ∧
  0 ≤ next_idx m ≤ max_branches ∧
  Z.of_nat (length (branch_params m)) = max_branches.
Proof.
  intros Htr.
  destruct (tracking_ok _ _ Htr) as ((_ & Hn & _) & Hlen & Hidx & Hvers & Hcur & _).
  unfold valid_version. split_and!; lia.
Qed.

(** X10, when [add_branch] succeeds and what it then does: it succeeds
    exactly when a slot is free and the version to fork from is inside
    [-len(versions), len(versions)); it then returns [next_idx + 1], the
    id of the one version it appends, moves the cursor there, advances
    [next_idx] by one and stores the record in the slot it took. *)
Theorem X10_add_branch_success max_branches m p res from_version :
  tracking max_branches m →
  ((∃ m' new_version,
      add_branch m p res from_version = (m', Ok new_version))
   ↔ next_idx m < max_branches ∧
     - Z.of_nat (length (versions (tree m))) ≤ parent_version m from_version
       < Z.of_nat (length (versions (tree m)))) ∧
  ∀ m' new_version,
    add_branch m p res from_version = (m', Ok new_version) →
    new_version = next_idx m + 1 ∧ current_version m' = next_idx m + 1 ∧
    next_idx m' = next_idx m + 1 ∧
    length (versions (tree m')) = S (length (versions (tree m))) ∧
    branch_params m'
      = <[Z.to_nat (next_idx m) := Some {| params := p; result_of := res |}]>
          (branch_params m).
Proof.
  intros Htr. pose proof (tracking_ok _ _ Htr) as Hok.
  pose proof Hok as (_ & _ & _ & Hvers & _).
  assert (Hcases :
    ∀ m' new_version, add_branch m p res from_version = (m', Ok new_version) →
      next_idx m < max_branches ∧
      - Z.of_nat (length (versions (tree m))) ≤ parent_version m from_version
        < Z.of_nat (length (versions (tree m)))).
  { intros m' new_version Hadd.
    destruct (Z_lt_le_dec (next_idx m) max_branches) as [Hfree|Hcap].
    2: { by rewrite (add_branch_capacity max_branches) in Hadd. }
    split; [done|].
    destruct (decide (- Z.of_nat (length (versions (tree m)))
                        ≤ parent_version m from_version
                        < Z.of_nat (length (versions (tree m))))) as [Hp|Hp];
      [done|].
    by rewrite (add_branch_invalid max_branches) in Hadd by (try done; lia). }
  split; [split|].
  - intros (m' & new_version & Hadd). by eapply Hcases.
  - intros [Hfree Hp].
    destruct (add_branch_success _ _ p res from_version Hok Hfree Hp)
      as (? & ? & _ & _ & _ & _ & ->). by do 2 eexists.
  - intros m' new_version Hadd. destruct (Hcases _ _ Hadd) as [Hfree Hp].
    destruct (add_branch_success _ _ p res from_version Hok Hfree Hp)
      as (? & root' & _ & _ & _ & _ & Hadd').
    rewrite Hadd' in Hadd. injection Hadd as <- <-. simpl.
    split_and!; try done; try lia. rewrite length_app. simpl. lia.
Qed.

(** X11, the slot list and the tree agree: in every tracker, each
    allocated slot [i] holds a record, the one of the call that made
    version [i + 1], and leaf [i] of that version holds the record's
    result; every slot after [next_idx] is still empty. *)
Theorem X11_slots_match_tree max_branches m :
  tracking max_branches m →
  (∀ i, 0 ≤ i < next_idx m →
     ∃ b, branch_params m !! Z.to_nat i = Some (Some b) ∧
          get_branch_result m (i + 1) i = Ok (result_of b)) ∧
  (∀ i, next_idx m < i < max_branches →
     branch_params m !! Z.to_nat i = Some None).
Proof.
  induction 1 as [depth m Hinit|m p res from_version Htr [IHrec IHfree]].
  - destruct (manager_init_ok _ _ _ Hinit) as [_ Hzero].
    unfold FlightSearchBranchManager__init__ in Hinit.
    destruct depth as [|[|depth]]; [done..|].
    destruct (PersistentSegmentTree__init__ depth max_branches); [|done].
    injection Hinit as <-. simpl. split; [intros; lia|].
    intros i Hi. apply lookup_replicate_2. lia.
  - pose proof (tracking_ok _ _ Htr) as Hok.
    pose proof Hok as (_ & Hlen & Hidx & Hvers & _).
    destruct (Z_lt_le_dec (next_idx m) max_branches) as [Hfree|Hcap].
    2: { by rewrite (add_branch_capacity max_branches). }
    destruct (decide (- Z.of_nat (length (versions (tree m)))
                        ≤ parent_version m from_version
                        < Z.of_nat (length (versions (tree m))))) as [Hp|Hp].
    + destruct (add_branch_success _ _ p res from_version Hok Hfree Hp)
        as (root & root' & _ & _ & Hs & Hup & ->). simpl. split.
      * intros i Hi. destruct (decide (i = next_idx m)) as [->|Hne].
        -- eexists. split; [apply list_lookup_insert_eq; lia|].
           unfold get_branch_result. simpl.
           replace (next_idx m + 1) with (Z.of_nat (length (versions (tree m))))
             by lia.
           rewrite query_new_version.
           pose proof (_update_hit _ _ _ _ _ _ Hs Hup) as Hhit.
           replace (target 0 (max_branches - 1) (next_idx m)) with (next_idx m)
             in Hhit by (unfold target; lia).
           by rewrite Hhit.
        -- destruct (IHrec i) as (b & Hb & Hres); [lia|]. exists b.
           split; [by rewrite list_lookup_insert_ne by lia|].
           rewrite <- Hres. unfold get_branch_result, query. simpl.
           by rewrite list_getitem_app by lia.
      * intros i Hi. rewrite list_lookup_insert_ne by lia. apply IHfree. lia.
    + rewrite (add_branch_invalid max_branches) by (try done; lia). simpl. split.
      * intros i Hi. destruct (IHrec i Hi) as (b & Hb & Hres). exists b.
        split; [by rewrite list_lookup_insert_ne by lia|done].
      * intros i Hi. rewrite list_lookup_insert_ne by lia. by apply IHfree.
Qed.

Lemma linear_tracking max_branches m :
  linear max_branches m → tracking max_branches m.
Proof.
  induction 1 as [depth m Hinit|m p res _ IH].
  - by eapply tracking_init.
  - by apply tracking_add.
Qed.

Lemma filter_within_prefix (xs : list (Z * value)) a n lo k :
  xs.*1 = seqZ a n → lo ≤ a →
  filter (within lo (a + k - 1)) xs = take (Z.to_nat k) xs.
Proof.
  intros Hxs Hlo. revert a n k Hxs Hlo.
  induction xs as [|q xs IH]; intros a n k Hxs Hlo; [by rewrite take_nil|].
  assert (0 < n).
  { destruct (Z_lt_le_dec 0 n); [done|]. by rewrite seqZ_nil in Hxs by lia. }
  rewrite seqZ_cons in Hxs by done. simpl in Hxs. injection Hxs as Hq Hxs.
  change (xs.*1 = seqZ (Z.succ a) (Z.pred n)) in Hxs.
  destruct (Z_lt_le_dec 0 k) as [Hk|Hk].
  - rewrite filter_cons_True by (unfold within; lia).
    replace (Z.to_nat k) with (S (Z.to_nat (k - 1))) by lia. simpl. f_equal.
    replace (a + k - 1) with (Z.succ a + (k - 1) - 1) by lia.
    apply (IH _ _ _ Hxs). lia.
  - replace (Z.to_nat k) with 0%nat by lia. simpl. apply filter_none.
    intros r Hr. apply (list_elem_of_fmap_2 fst) in Hr. rewrite fmap_cons in Hr.
    apply elem_of_cons in Hr as [Hr|Hr]; [unfold within; lia|].
    rewrite Hxs, elem_of_seqZ in Hr. unfold within. lia.
Qed.

Lemma query_prefix n (root : Node) k :
  shaped 0 (n - 1) root →
  _query root 0 (k - 1) = Ok (take (Z.to_nat k) (leaves root).*2).
Proof.
  intros Hs. rewrite (_query_spec _ _ _ _ _ Hs), <- fmap_take. do 2 f_equal.
  replace (k - 1) with (0 + k - 1) by lia.
  by eapply filter_within_prefix; [apply (leaves_indices _ _ _ Hs)|].
Qed.

(** In a tracker with a linear history, version [k] holds the first [k]
    recorded results and nothing else. *)
Lemma linear_arrays max_branches m :
  linear max_branches m →
  length (recorded_results m) = Z.to_nat (next_idx m) ∧
  ∀ k (root : Node), versions (tree m) !! k = Some root →
    (leaves root).*2 = take k (recorded_results m)
                         ++ replicate (Z.to_nat max_branches - k) None.
Proof.
  induction 1 as [depth m Hinit|m p res Hlin [IHlen IHver]].
  - unfold FlightSearchBranchManager__init__ in Hinit.
    destruct depth as [|[|depth]]; [done..|].
    destruct (PersistentSegmentTree__init__ depth max_branches) as [t|] eqn:Ht;
      [|done].
    injection Hinit as <-. destruct (init_ok _ _ _ Ht) as [_ (root & -> & Hl)].
    unfold recorded_results. simpl. split; [done|].
    intros [|k] root0; simpl; [|done]. intros [= <-].
    rewrite Hl, <- list_fmap_compose, (const_fmap _ _ None) by done.
    by rewrite length_seqZ, Nat.sub_0_r.
  - pose proof (linear_tracking _ _ Hlin) as Htr.
    pose proof (tracking_ok _ _ Htr) as Hok.
    pose proof Hok as (_ & Hlen & Hidx & Hvers & Hcur & _).
    destruct (Z_lt_le_dec (next_idx m) max_branches) as [Hfree|Hcap].
    2: { by rewrite (add_branch_capacity max_branches). }
    destruct (add_branch_success _ _ p res None Hok Hfree)
      as (root & root' & Hget & _ & Hs & Hup & ->); [simpl; lia|].
    simpl in Hget. rewrite Hcur in Hget.
    destruct (list_getitem_valid (versions (tree m)) (next_idx m))
      as (root0 & Hroot & Hget0); [lia|].
    rewrite Hget in Hget0. injection Hget0 as <-.
    assert (Hrec : recorded_results
              {| tree := {| size := size (tree m);
                            versions := versions (tree m) ++ [root'] |};
                 branch_params :=
                   <[Z.to_nat (next_idx m) :=
                       Some {| params := p; result_of := res |}]> (branch_params m);
                 current_version := Z.of_nat (length (versions (tree m)));
                 next_idx := next_idx m + 1 |}
            = recorded_results m ++ [res]).
    { unfold recorded_results. simpl.
      replace (Z.to_nat (next_idx m + 1)) with (S (Z.to_nat (next_idx m))) by lia.
      rewrite (take_S_r _ _ (Some {| params := p; result_of := res |}))
        by (apply list_lookup_insert_eq; lia).
      by rewrite take_insert_ge, fmap_app by lia. }
    cbn [fst]. rewrite Hrec. simpl. split; [rewrite length_app; simpl; lia|].
    intros k r Hk. apply lookup_app_Some in Hk as [Hk|[Hge Hk]].
    + rewrite (IHver _ _ Hk). apply lookup_lt_Some in Hk.
      by rewrite take_app_le by lia.
    + apply list_lookup_singleton_Some in Hk as [Hk <-].
      assert (k = S (Z.to_nat (next_idx m))) as -> by lia.
      destruct (_update_spec _ _ _ (next_idx m) res Hs) as (? & Hup' & _ & Hl).
      rewrite Hup in Hup'. injection Hup' as <-.
      rewrite Hl, (fmap_point_insert _ _ _ _ _ (leaves_indices _ _ _ Hs))
        by (unfold target; lia).
      replace (target 0 (max_branches - 1) (next_idx m) - 0) with (next_idx m)
        by (unfold target; lia).
      rewrite (IHver _ _ Hroot), !take_ge by (rewrite ?length_app; simpl; lia).
      rewrite insert_app_r_alt by lia.
      replace (Z.to_nat (next_idx m) - length (recorded_results m))%nat
        with 0%nat by lia.
      replace (Z.to_nat max_branches - Z.to_nat (next_idx m))%nat
        with (S (Z.to_nat max_branches - S (Z.to_nat (next_idx m)))) by lia.
      simpl. by rewrite <- app_assoc.
Qed.

Lemma linear_all_results max_branches m version :
  linear max_branches m → 0 ≤ version ≤ next_idx m →
  get_all_results m version
    = Ok (take (Z.to_nat version) (recorded_results m)
            ++ replicate (Z.to_nat (next_idx m - version)) None).
Proof.
  intros Hlin Hv. destruct (linear_arrays _ _ Hlin) as [Hlen Hver].
  pose proof (tracking_ok _ _ (linear_tracking _ _ Hlin)) as Hok.
  pose proof Hok as (Htree & _ & Hidx & Hvers & Hcur & _).
  destruct (query_valid _ _ version 0 (next_idx m - 1) Htree)
    as (root & Hroot & Hs & Hq); [unfold valid_version; lia|].
  unfold get_all_results. rewrite Hq, (query_prefix _ _ _ Hs), (Hver _ _ Hroot).
  rewrite take_app, take_take, take_replicate, length_take. f_equal.
  f_equal; f_equal; lia.
Qed.

Lemma linear_add_results max_branches m p res :
  linear max_branches m → next_idx m < max_branches →
  ∃ m',
    add_branch m p res None = (m', Ok (next_idx m + 1)) ∧
    next_idx m' = next_idx m + 1 ∧ current_version m' = current_version m + 1 ∧
    recorded_results m' = recorded_results m ++ [res] ∧
    branch_params m' !! Z.to_nat (next_idx m)
      = Some (Some {| params := p; result_of := res |}).
Proof.
  intros Hlin Hfree.
  pose proof (tracking_ok _ _ (linear_tracking _ _ Hlin)) as Hok.
  pose proof Hok as (_ & Hlen & Hidx & Hvers & Hcur & _).
  destruct (add_branch_success _ _ p res None Hok Hfree)
    as (root & root' & _ & _ & _ & _ & ->); [simpl; lia|].
  eexists. split; [do 2 f_equal; lia|]. simpl.
  split_and!; [done|lia| |apply list_lookup_insert_eq; lia].
  unfold recorded_results. simpl.
  replace (Z.to_nat (next_idx m + 1)) with (S (Z.to_nat (next_idx m))) by lia.
  rewrite (take_S_r _ _ (Some {| params := p; result_of := res |}))
    by (apply list_lookup_insert_eq; lia).
  by rewrite take_insert_ge, fmap_app by lia.
Qed.

(** X12, what [get_all_results] returns when every branch was added
    with the default [from_version]: for the version after [k] calls, the
    results of the first [k] calls in call order, followed by one [None]
    for each slot allocated since; for [current_version], the results of
    all calls. *)
Theorem X12_linear_history_results max_branches m version :
  linear max_branches m → 0 ≤ version ≤ next_idx m →
  get_all_results m version
    = Ok (take (Z.to_nat version) (recorded_results m)
            ++ replicate (Z.to_nat (next_idx m - version)) None) ∧
  get_all_results m (current_version m) = Ok (recorded_results m).
Proof.
  intros Hlin Hv. split; [by apply (linear_all_results max_branches)|].
  destruct (linear_arrays _ _ Hlin) as [Hlen _].
  pose proof (tracking_ok _ _ (linear_tracking _ _ Hlin))
    as (_ & _ & Hidx & _ & Hcur & _).
  rewrite Hcur, (linear_all_results max_branches) by (done || lia).
  rewrite take_ge by lia.
  replace (Z.to_nat (next_idx m - next_idx m)) with 0%nat by lia.
  by rewrite app_nil_r.
Qed.

End MoreTrackerFacts.

(** ** Further properties of the tree on the heap *)

Section MoreHeapFacts.
Context {V : Type}.
Local Abbreviation value := (option V).
Local Abbreviation heap := (list (Heap.cell V)).
Implicit Types (h : heap) (v : value).

Lemma heap_build_count depth l r h a h' :
  Heap._build depth l r h = Ok (a, h') →
  ∃ new, h' = h ++ new ∧ Z.of_nat (length new) = 2 * (r - l + 1) - 1 ∧
         a = (length h + length new - 1)%nat.
Proof.
  revert l r h a h'. induction depth as [|depth IH]; intros l r h a h'; [done|].
  destruct (decide (1 ≤ depth)%nat) as [Hd|Hd];
    [rewrite (heap_build_S _ _ _ _ Hd)|by rewrite heap_build_small by lia].
  simpl. destruct (Z.eqb_spec l r) as [->|Hne].
  { intros [= <- <-]. eexists. split_and!; [done|simpl; lia|simpl; lia]. }
  destruct (Heap._build depth l _ h) as [[al h1]|] eqn:Hl; [|done]. simpl.
  destruct (Heap._build depth _ r h1) as [[ar h2]|] eqn:Hr; [|done]. simpl.
  intros [= <- <-].
  apply IH in Hl as (new1 & -> & Hn1 & _). apply IH in Hr as (new2 & -> & Hn2 & _).
  exists (new1 ++ new2 ++ [Heap.Cell l r None (Some al) (Some ar)]).
  split_and!.
  - by rewrite <- !app_assoc.
  - rewrite !length_app. simpl. lia.
  - rewrite !length_app. simpl. lia.
Qed.

Lemma init_allocates depth n h h' (self : Heap.PersistentSegmentTree) :
  Heap.__init__ depth n h = Ok (h', self) →
  ∃ new, h' = h ++ new ∧ Z.of_nat (length new) = 2 * n - 1 ∧
         Heap.size self = n ∧
         Heap.versions self = [(length h + length new - 1)%nat].
Proof.
  unfold Heap.__init__. destruct depth as [|[|depth]]; [done..|].
  destruct (Heap._build depth 0 (n - 1) h) as [[root h1]|] eqn:Hb; [|done].
  simpl. intros [= <- <-].
  destruct (heap_build_count _ _ _ _ _ _ Hb) as (new & -> & Hlen & ->).
  exists new. split_and!; [done|lia|done..].
Qed.

(** X13, what construction allocates: a tree of size [n] is made of
    exactly [2 n - 1] node objects, allocated after everything the heap
    held; the root, the only version, is the one allocated last. *)
Theorem X13_build_allocates depth n h h' (self : Heap.PersistentSegmentTree) :
  Heap.__init__ depth n h = Ok (h', self) →
  ∃ new, h' = h ++ new ∧ Z.of_nat (length new) = 2 * n - 1 ∧
         Heap.size self = n ∧
         Heap.versions self = [(length h + length new - 1)%nat].
Proof. apply init_allocates. Qed.

(** X14, queries stay within the recursion limit of construction: in a
    state reached with a given limit, a query of a valid version never
    raises; it returns one value per index of the query range that lies
    in the tree. *)
Theorem X14_heap_query_succeeds depth n (s : heap * Heap.PersistentSegmentTree)
    version l r :
  Heap.stored depth n s →
  0 ≤ version < Z.of_nat (length (Heap.versions s.2)) →
  ∃ xs, Heap.query depth s version l r = Ok xs ∧
        Z.of_nat (length xs) = 0 `max` ((n - 1) `min` r - 0 `max` l + 1).
Proof.
  intros Hst Hv. destruct (stored_inv _ _ _ Hst) as [t Hinv].
  rewrite (query_refines _ _ _ _ version l r Hinv).
  destruct Hinv as (Hb & (_ & Hrepr) & _).
  rewrite (Forall2_length _ _ _ Hrepr) in Hv.
  destruct (query_valid n t version l r (built_ok _ _ Hb) Hv)
    as (root & _ & Hs & ->).
  rewrite (_query_spec _ _ _ _ _ Hs). eexists. split; [done|].
  rewrite length_fmap, <- (length_fmap fst).
  rewrite (filter_within_indices _ _ _ _ _ (leaves_indices _ _ _ Hs)).
  rewrite length_seqZ. lia.
Qed.

Lemma heap_update_growth depth n (s : heap * Heap.PersistentSegmentTree)
    version idx v :
  Heap.stored depth n s →
  ∃ h_new,
    (Heap.update depth s version idx v).1.1 = s.1 ++ h_new ∧
    Z.of_nat (length h_new) ≤ Z.log2_up n + 1 ∧
    (length (Heap.versions (Heap.update depth s version idx v).1.2)
       ≤ S (length (Heap.versions s.2)))%nat.
Proof.
  intros Hst. destruct (stored_inv _ _ _ Hst) as [t Hinv]. destruct s as [h self].
  assert (0 ≤ Z.log2_up n) by apply Z.log2_up_nonneg.
  destruct (decide (- Z.of_nat (length (Heap.versions self)) ≤ version
                      < Z.of_nat (length (Heap.versions self)))) as [Hv|Hv].
  - destruct (update_sim depth n h self t version idx v Hinv Hv)
      as (a & root & root' & h_new & a' & _ & _ & Hs & _ & Hcount & _ & _ & -> & _).
    exists h_new. simpl. split_and!; [done| |rewrite length_app; simpl; lia].
    rewrite Hcount. by apply path_length_log2.
  - pose proof (heap_inv_depth _ _ _ _ Hinv).
    destruct depth as [|depth]; [lia|].
    unfold Heap.update. rewrite list_getitem_outside by lia. simpl.
    exists []. rewrite app_nil_r. simpl. split_and!; [done|lia|lia].
Qed.

Lemma stored_heap_updates depth n (s : heap * Heap.PersistentSegmentTree) ops :
  Heap.stored depth n s → Heap.stored depth n (heap_updates depth s ops).
Proof.
  revert s. induction ops as [|[[version idx] v] ops IH]; intros s Hst; [done|].
  simpl. apply IH. by apply Heap.stored_update.
Qed.

Lemma heap_updates_snoc depth (s : heap * Heap.PersistentSegmentTree)
    ops version idx v :
  heap_updates depth s (ops ++ [(version, idx, v)])
    = (Heap.update depth (heap_updates depth s ops) version idx v).1.
Proof. unfold heap_updates. by rewrite foldl_app. Qed.

(** X15, what the versions cost: after construction and any list of
    updates the heap holds what it held before, the [2 n - 1] nodes of
    version 0 and at most [⌈log2 n⌉ + 1] further nodes per update; no
    object is ever removed or replaced. *)
Theorem X15_heap_growth depth n h (s0 : heap * Heap.PersistentSegmentTree) ops :
  Heap.__init__ depth n h = Ok s0 →
  ∃ new,
    (heap_updates depth s0 ops).1 = h ++ new ∧
    Z.of_nat (length new)
      ≤ 2 * n - 1 + Z.of_nat (length ops) * (Z.log2_up n + 1) ∧
    (length (Heap.versions (heap_updates depth s0 ops).2) ≤ 1 + length ops)%nat.
Proof.
  intros Hinit. pose proof (Heap.stored_init depth n h s0 Hinit) as Hst.
  assert (0 ≤ Z.log2_up n) by apply Z.log2_up_nonneg.
  induction ops as [|[[version idx] v] ops IH] using rev_ind.
  - destruct s0 as [h0 self0].
    destruct (init_allocates depth n h h0 self0 Hinit)
      as (new & -> & Hlen & _ & Hvers).
    exists new. simpl. rewrite Hvers. simpl. split_and!; [done|lia|lia].
  - destruct IH as (new & Hheap & Hlen & Hvers). rewrite heap_updates_snoc.
    destruct (heap_update_growth depth n _ version idx v
                (stored_heap_updates depth n s0 ops Hst))
      as (h_new & Hh & Hgrow & Hmore).
    rewrite Hh, Hheap. exists (new ++ h_new).
    rewrite !length_app, <- app_assoc. split_and!; [done|simpl; lia|simpl; lia].
Qed.

End MoreHeapFacts.

(** ** Properties of the wrapper *)

Section WrapperFacts.
Context {A V : Type}.
Local Abbreviation Manager := (FlightSearchBranchManager V (gmap string A)).
Implicit Types (m : Manager) (kwargs : gmap string A) (res : option V).

Section Names.
Variable args : list A.

(** One round of the loop over the parameter names. *)
Local Abbreviation name_arg :=
  (λ (params : gmap string A) '(i, name),
     if bool_decide (i < length args)%nat then
       match args !! i with
       | Some a => <[name := a]> params
       | None => params
       end
     else params).

Lemma name_arg_lookup params i n name :
  name_arg params (i, n) !! name
  = if decide (n = name) then
      match args !! i with Some a => Some a | None => params !! name end
    else params !! name.
Proof.
  simpl. case_bool_decide.
  - destruct (args !! i) as [a|]; [|by destruct (decide _)].
    destruct (decide (n = name)) as [->|Hne];
      [by rewrite lookup_insert_eq|by rewrite lookup_insert_ne].
  - rewrite lookup_ge_None_2 by lia. by destruct (decide _).
Qed.

Lemma name_args_other (f : nat → nat) ns params name :
  name ∉ ns →
  foldl name_arg params (imap (λ i, pair (f i)) ns) !! name = params !! name.
Proof.
  revert f params. induction ns as [|n ns IH]; intros f params Hnot; [done|].
  apply not_elem_of_cons in Hnot as [Hne Hnot]. simpl foldl.
  rewrite (IH (f ∘ S)) by done.
  rewrite name_arg_lookup. by rewrite decide_False.
Qed.

Lemma name_args_lookup (f : nat → nat) ns params j name :
  NoDup ns → ns !! j = Some name →
  foldl name_arg params (imap (λ i, pair (f i)) ns) !! name
  = match args !! f j with Some a => Some a | None => params !! name end.
Proof.
  revert f params j. induction ns as [|n ns IH]; intros f params j Hnd Hj; [done|].
  apply NoDup_cons in Hnd as [Hn Hnd]. simpl foldl. destruct j as [|j].
  - injection Hj as ->. rewrite (name_args_other (f ∘ S)) by done.
    rewrite name_arg_lookup. by rewrite decide_True.
  - simpl in Hj. rewrite (IH (f ∘ S) _ j) by done.
    rewrite name_arg_lookup, decide_False; [done|].
    intros ->. apply Hn. by eapply list_elem_of_lookup_2.
Qed.

End Names.

(** X16, the parameters [wrapped] records: a keyword argument is
    recorded under its name, whatever else there is; otherwise the name
    at position [i] of [param_names] holds positional argument [i] if
    there is one; no other name is recorded, so positional arguments
    after the fifth are dropped. *)
Theorem X16_collect_params (args : list A) kwargs name :
  (∀ a, kwargs !! name = Some a → collect_params args kwargs !! name = Some a) ∧
  (kwargs !! name = None → ∀ i, param_names !! i = Some name →
     collect_params args kwargs !! name = args !! i) ∧
  (kwargs !! name = None → name ∉ param_names →
     collect_params args kwargs !! name = None).
Proof.
  assert (Hnd : NoDup param_names).
  { apply (bool_decide_unpack _). by vm_compute. }
  unfold collect_params. cbv zeta. split_and!.
  - intros a Ha. by apply lookup_union_Some_l.
  - intros Hk i Hi. rewrite lookup_union_r by done.
    destruct args as [|a0 args']; [by rewrite lookup_empty, lookup_nil|].
    rewrite (name_args_lookup _ id _ _ i) by done.
    rewrite lookup_empty. unfold id. by destruct ((a0 :: args') !! i).
  - intros Hk Hnot. rewrite lookup_union_r by done.
    destruct args as [|a0 args']; [by rewrite lookup_empty|].
    by rewrite (name_args_other _ id) by done.
Qed.

Lemma wrapped_free max_branches m (args : list A) kwargs res :
  linear max_branches m → next_idx m < max_branches →
  ∃ m',
    wrapped m args kwargs (Ok res) = (m', Ok res) ∧ linear max_branches m' ∧
    next_idx m' = next_idx m + 1 ∧ current_version m' = current_version m + 1 ∧
    recorded_results m' = recorded_results m ++ [res] ∧
    branch_params m' !! Z.to_nat (next_idx m)
      = Some (Some {| params := collect_params args kwargs; result_of := res |}).
Proof.
  intros Hlin Hfree.
  destruct (linear_add_results _ _ (collect_params args kwargs) res Hlin Hfree)
    as (m' & Hadd & Hnext & Hcur & Hrec & Hslot).
  exists m'. unfold wrapped. rewrite Hadd. split_and!; try done.
  replace m' with (add_branch m (collect_params args kwargs) res None).1
    by by rewrite Hadd.
  by apply linear_add.
Qed.

Lemma wrapped_full max_branches m (args : list A) kwargs res :
  linear max_branches m → max_branches ≤ next_idx m →
  wrapped m args kwargs (Ok res) = (m, Raise IndexError).
Proof.
  intros Hlin Hcap. unfold wrapped.
  by rewrite (add_branch_capacity max_branches)
    by (try done; by apply tracking_ok, linear_tracking).
Qed.

(** X17, a wrapped call with a free slot: the wrapper returns what the
    tool returned, the tracker gets one more version, which becomes the
    current one, the call's parameters and result are recorded in the
    slot taken, and [get_all_results] of the current version returns the
    results of all wrapped calls so far, this one last. *)
Theorem X17_wrapped_records max_branches m (args : list A) kwargs res :
  linear max_branches m → next_idx m < max_branches →
  ∃ m',
    wrapped m args kwargs (Ok res) = (m', Ok res) ∧
    next_idx m' = next_idx m + 1 ∧ current_version m' = current_version m + 1 ∧
    branch_params m' !! Z.to_nat (next_idx m)
      = Some (Some {| params := collect_params args kwargs; result_of := res |}) ∧
    get_all_results m (current_version m) = Ok (recorded_results m) ∧
    get_all_results m' (current_version m') = Ok (recorded_results m ++ [res]).
Proof.
  intros Hlin Hfree.
  destruct (wrapped_free _ _ args kwargs res Hlin Hfree)
    as (m' & Hw & Hlin' & Hnext & Hcur & Hrec & Hslot).
  assert (Hall : ∀ m0 : Manager, linear max_branches m0 →
            get_all_results m0 (current_version m0) = Ok (recorded_results m0)).
  { intros m0 Hlin0. destruct (linear_arrays _ _ Hlin0) as [Hlen _].
    pose proof (tracking_ok _ _ (linear_tracking _ _ Hlin0))
      as (_ & _ & Hidx & _ & Hcur0 & _).
    rewrite Hcur0, (linear_all_results max_branches) by (done || lia).
    rewrite take_ge by lia.
    replace (Z.to_nat (next_idx m0 - next_idx m0)) with 0%nat by lia.
    by rewrite app_nil_r. }
  exists m'. split_and!; try done; [by apply Hall|].
  rewrite <- Hrec. by apply Hall.
Qed.

Lemma session_cons m (args : list A) kwargs tool calls :
  session m ((args, kwargs, tool) :: calls)
  = ((session (wrapped m args kwargs tool).1 calls).1,
     (wrapped m args kwargs tool).2
       :: (session (wrapped m args kwargs tool).1 calls).2).
Proof.
  cbn [session]. destruct (wrapped m args kwargs tool) as [m' out].
  cbn [fst snd]. by destruct (session m' calls).
Qed.

(** X18, the wrapper and the capacity of the tracker: in a run of
    wrapped calls whose tools all return, on a tracker with [k] slots
    taken, call number [i] returns its tool's result while
    [k + i < max_branches] and raises [IndexError], the result lost, from
    then on; the module's tracker has [max_branches = 100]. *)
Theorem X18_session_capacity max_branches m
    (calls : list (list A * gmap string A * result (option V))) :
  linear max_branches m →
  Forall (λ c, ∃ res, c.2 = Ok res) calls →
  next_idx (session m calls).1
    = (next_idx m + Z.of_nat (length calls)) `min` max_branches ∧
  ∀ i args kwargs res,
    calls !! i = Some (args, kwargs, Ok res) →
    (session m calls).2 !! i
      = Some (if decide (next_idx m + Z.of_nat i < max_branches)
              then Ok res else Raise IndexError).
Proof.
  intros Hlin Hall. revert m Hlin.
  induction Hall as [|[[args kwargs] tool] calls [res Hres] _ IH]; intros m Hlin.
  { pose proof (tracking_ok _ _ (linear_tracking _ _ Hlin)) as (_ & _ & ? & _).
    simpl. split; [lia|done]. }
  simpl in Hres. subst tool.
  pose proof (tracking_ok _ _ (linear_tracking _ _ Hlin)) as (_ & _ & Hidx & _).
  rewrite session_cons.
  destruct (Z_lt_le_dec (next_idx m) max_branches) as [Hfree|Hcap].
  - destruct (wrapped_free _ _ args kwargs res Hlin Hfree)
      as (m' & -> & Hlin' & Hnext & _).
    destruct (IH m' Hlin') as [IHnext IHout].
    cbn [fst snd]. split; [rewrite IHnext; simpl; lia|].
    intros [|i] args0 kwargs0 res0; simpl.
    + intros [= <- <- <-]. by rewrite decide_True by lia.
    + intros Hi. rewrite (IHout _ _ _ _ Hi), Hnext. do 2 f_equal.
      destruct (decide _), (decide _); try done; lia.
  - rewrite (wrapped_full max_branches) by done.
    destruct (IH m Hlin) as [IHnext IHout].
    cbn [fst snd]. split; [rewrite IHnext; simpl; lia|].
    intros [|i] args0 kwargs0 res0; simpl.
    + intros [= <- <- <-]. by rewrite decide_False by lia.
    + intros Hi. rewrite (IHout _ _ _ _ Hi).
      rewrite !decide_False by lia. done.
Qed.

End WrapperFacts.

(** ** Properties of the tools of [server.py] *)

Section ServerFacts.
Import Server.
Context {number : Type}.
Variable number_truth : number → bool.
Variable str_slice : nat → string → string.
Variable dict_slice_error : exception.
Variable dumps : json number → string.
Local Abbreviation json := (json number).
Local Abbreviation response := (response number).
Local Abbreviation truth := (truth number number_truth).
Local Abbreviation get_pois :=
  (get_pois number number_truth str_slice dict_slice_error dumps).
Local Abbreviation hotel_ids := (hotel_ids number number_truth).
Local Abbreviation tool_search_hotels_by_city :=
  (tool_search_hotels_by_city number number_truth str_slice dict_slice_error).
Implicit Types (d : gmap string json) (post : response).

Lemma token_object d :
  get_access_token (Body (JObject d))
  = Return (JObject {[ "access_token"%string := default JNull (d !! "access_token"%string);
                       "expires_in"%string := default JNull (d !! "expires_in"%string) ]}).
Proof.
  simpl. by destruct (d !! "access_token"%string), (d !! "expires_in"%string).
Qed.

Lemma token_dict_error (a e : json) :
  ({[ "access_token"%string := a; "expires_in"%string := e ]}
     : gmap string json) !! "error"%string = None.
Proof. done. Qed.

Lemma token_dict_access (a e : json) :
  ({[ "access_token"%string := a; "expires_in"%string := e ]}
     : gmap string json) !! "access_token"%string = Some a.
Proof. done. Qed.

Lemma token_object_no_error (a e : json) :
  contains "error" (JObject {[ "access_token"%string := a;
                               "expires_in"%string := e ]})
  = Return false.
Proof.
  done.
Qed.

(** X19, what [get_access_token] hands to the tools: a dictionary that
    has the key ["error"], with the message of the failed request, or
    does not have it and has the key ["access_token"], so that the
    subscript the tools apply after their test for ["error"] never
    raises. It raises itself only when the body of the answer is not an
    object, with [AttributeError]. *)
Theorem X19_access_token_shape post :
  (∀ token_res, get_access_token post = Return token_res →
     (∃ message, post = RequestException message ∧
        contains "error" token_res = Return true ∧
        getitem token_res "error"
          = Return (JString ("Error getting token: " +:+ message))) ∨
     (∃ d, post = Body (JObject d) ∧
        contains "error" token_res = Return false ∧
        getitem token_res "access_token"
          = Return (default JNull (d !! "access_token"%string)))) ∧
  (∀ e, get_access_token post = Raise e →
     e = AttributeError ∧ ∃ body, post = Body body ∧ ∀ d, body ≠ JObject d).
Proof.
  destruct post as [body|message].
  - destruct body as [|b|n|s|xs|d];
      try (split; [done|]; intros e [= <-]; split; [done|];
           by eexists; split; [done|]).
    rewrite token_object. split; [|done]. intros token_res [= <-]. right.
    exists d. split; [done|]. split; [apply token_object_no_error|done].
  - split; [|done]. intros token_res [= <-]. left. exists message. done.
Qed.

(** X20, a failed search for points of interest is not reported: when
    the token was obtained and the search request fails, or its answer
    has the key ["error"], [get_pois] raises [KeyError], for the key
    ["error"] it looks up in the token dictionary. *)
Theorem X20_get_pois_search_failure d :
  (∀ message,
     get_pois (Body (JObject d)) (RequestException message)
       = Raise (KeyError "error")) ∧
  (∀ d', is_Some (d' !! "error"%string) →
     get_pois (Body (JObject d)) (Body (JObject d'))
       = Raise (KeyError "error")).
Proof.
  split.
  - intros message. unfold Server.get_pois. by rewrite token_object.
  - intros d' Hd'. unfold Server.get_pois. rewrite token_object. simpl.
    by rewrite (bool_decide_eq_true_2 _ Hd').
Qed.

Lemma hotel_ids_objects (objs : list (gmap string json)) (ids : list json) :
  hotel_ids (JObject <$> objs) ids
  = Return (ids ++ filter (λ x, truth x)
                     ((λ d, default JNull (d !! "hotelId"%string)) <$> objs)).
Proof.
  revert ids. induction objs as [|d objs IH]; intros ids.
  - simpl. by rewrite app_nil_r.
  - rewrite !fmap_cons. cbn [Server.hotel_ids].
    assert (Hget : get (JObject d) "hotelId" JNull
                   = Return (default JNull (d !! "hotelId"%string)))
      by (simpl; by destruct (d !! "hotelId"%string)).
    rewrite Hget. cbn [mbind outcome_bind]. rewrite IH, filter_cons.
    destruct (Server.truth _ _ _); simpl; [by rewrite <- app_assoc|done].
Qed.

(** X21, the hotels the offers are asked for: when the token was
    obtained and the search answers an object without ["error"] whose
    ["data"] is an array of objects, the ids are the true ["hotelId"]
    values of the first five entries, in order; entries after the fifth
    are not looked at; with no such id the tool answers that no hotels
    were found and asks for no offers, otherwise it returns what
    [get_hotel_offers] returns for these ids. *)
Theorem X21_hotel_ids d dh (objs : list (gmap string json))
    (offers_request : list json → response) :
  dh !! "error"%string = None →
  dh !! "data"%string = Some (JArray (JObject <$> objs)) →
  tool_search_hotels_by_city (Body (JObject d)) (Body (JObject dh)) offers_request
  = match filter (λ x, truth x)
            ((λ d, default JNull (d !! "hotelId"%string)) <$> take 5 objs) with
    | [] => Return (JObject {[ "error"%string :=
                       JString "No hotels were found for the specified city." ]})
    | ids => get_hotel_offers ids (offers_request ids)
    end.
Proof.
  intros Herr Hdata. unfold Server.tool_search_hotels_by_city.
  rewrite token_object. simpl. rewrite Herr, Hdata.
  rewrite token_dict_error, token_dict_access. simpl.
  rewrite <- fmap_take, hotel_ids_objects, app_nil_l. cbn [mbind outcome_bind].
  by destruct (filter _ _).
Qed.

(** X22, the hotel tool reports failed requests as values: a failed
    token request and a failed hotel search each make it return a
    dictionary with the message under ["error"]; neither raises. *)
Theorem X22_hotel_tool_errors d message
    (hotels_request : response) (offers_request : list json → response) :
  tool_search_hotels_by_city (RequestException message) hotels_request
    offers_request
    = Return (JObject {[ "error"%string :=
                JString ("Error getting token: " +:+ message) ]}) ∧
  tool_search_hotels_by_city (Body (JObject d)) (RequestException message)
    offers_request
    = Return (JObject {[ "error"%string :=
                JString ("Error searching for hotels: " +:+ message) ]}).
Proof.
  split; [done|]. unfold Server.tool_search_hotels_by_city.
  by rewrite token_object.
Qed.

End ServerFacts.

(** ** The scenarios of the specification, and the claims on concrete inputs *)

Example scenario_A :
  PersistentSegmentTree__init__ 10 4 = Ok tree4 ∧
  (update tree4 0 0 (Some "A"%string)).2 = Ok 1 ∧
  (update tree4_v1 1 2 (Some "B"%string)).2 = Ok 2 ∧
  query tree4_v2 1 0 3 = Ok [Some "A"%string; None; None; None] ∧
  query tree4_v2 2 0 3 = Ok [Some "A"%string; None; Some "B"%string; None] ∧
  query tree4_v2 0 0 3 = Ok [None; None; None; None].
Proof. by vm_compute. Qed.

(** The fork from version 0 writes the slot [next_idx = 1]: its slot 0
    is as unset as in version 0. The third call fails. *)
Example scenario_B :
  FlightSearchBranchManager__init__ 10 2 = Ok tracker2 ∧
  (add_branch tracker2 "BOS"%string (Some 100) None).2 = Ok 1 ∧
  (add_branch tracker2_bos "NYC"%string (Some 200) (Some 0)).2 = Ok 2 ∧
  get_branch_result tracker2_fork 2 1 = Ok (Some 200) ∧
  get_branch_result tracker2_fork 2 0 = Ok None ∧
  get_branch_result tracker2_fork 1 0 = Ok (Some 100) ∧
  add_branch tracker2_fork "SFO"%string (Some 300) None
    = (tracker2_fork, Raise IndexError).
Proof. by vm_compute. Qed.

Lemma built_tree4_v1 : built 4 tree4_v1.
Proof. apply built_update, (built_init 4 10). reflexivity. Defined.

Lemma tracking_tracker2_bos : tracking 2 tracker2_bos.
Proof. apply tracking_add, (tracking_init 2 10). reflexivity. Defined.

Lemma stored_heap3 : Heap.stored 10 3 (heap3, stored3).
Proof. apply (Heap.stored_init 10 3 []). reflexivity. Defined.

Lemma C1_witness :
  built 4 tree4_v1 ∧ later tree4_v1 tree4_v2 ∧ valid_version tree4_v1 1 ∧
  query tree4_v2 1 0 3 = query tree4_v1 1 0 3 ∧
  ∃ xs, query tree4_v1 1 0 3 = Ok xs.
Proof.
  assert (Hl : later tree4_v1 tree4_v2) by apply (later_update tree4_v1), later_now.
  assert (Hv : valid_version tree4_v1 1) by (unfold valid_version; simpl; lia).
  exact (conj built_tree4_v1 (conj Hl (conj Hv
           (C1_persistence 4 tree4_v1 tree4_v2 1 0 3 built_tree4_v1 Hl Hv)))).
Defined.

Lemma C2_witness :
  built 4 tree4_v1 ∧ valid_version tree4_v1 1 ∧ 0 ≤ 2 < 4 ∧
  ∃ t', update tree4_v1 1 2 (Some "B"%string)
          = (t', Ok (Z.of_nat (length (versions tree4_v1)))) ∧
        query t' (Z.of_nat (length (versions tree4_v1))) 2 2 = Ok [Some "B"%string].
Proof.
  assert (Hv : valid_version tree4_v1 1) by (unfold valid_version; simpl; lia).
  assert (Hi : 0 ≤ 2 < 4) by lia.
  exact (conj built_tree4_v1 (conj Hv (conj Hi
           (C2_point_round_trip 4 tree4_v1 1 2 (Some "B"%string)
              built_tree4_v1 Hv Hi)))).
Defined.

Lemma C3_counterexample :
  update tree2 0 5 (Some "x"%string) =
    ({| size := 2;
        versions := [Inner 0 1 None (Leaf 0 0 None) (Leaf 1 1 None);
                     Inner 0 1 None (Leaf 0 0 None) (Leaf 1 1 (Some "x"%string))] |},
     Ok 1) ∧
  update tree2 (-1) (-3) (Some "x"%string) =
    ({| size := 2;
        versions := [Inner 0 1 None (Leaf 0 0 None) (Leaf 1 1 None);
                     Inner 0 1 None (Leaf 0 0 (Some "x"%string)) (Leaf 1 1 None)] |},
     Ok 1).
Proof. by vm_compute. Qed.

Lemma C3_witness :
  built 4 tree4_v1 ∧
  update tree4_v1 5 7 (Some "x"%string) = (tree4_v1, Raise IndexError) ∧
  update tree4_v1 (-3) 7 (Some "x"%string) = (tree4_v1, Raise IndexError) ∧
  ∃ root root' xs,
    versions tree4_v1
      !! Z.to_nat (if -1 <? 0
                   then -1 + Z.of_nat (length (versions tree4_v1)) else -1)
      = Some root ∧
    update tree4_v1 (-1) 7 (Some "x"%string)
      = ({| size := size tree4_v1; versions := versions tree4_v1 ++ [root'] |},
         Ok (Z.of_nat (length (versions tree4_v1)))) ∧
    _query root 0 (4 - 1) = Ok xs ∧ length xs = Z.to_nat 4 ∧
    _query root' 0 (4 - 1)
      = Ok (<[Z.to_nat (0 `max` (7 `min` (4 - 1))) := Some "x"%string]> xs).
Proof.
  split; [exact built_tree4_v1|]. split; [|split].
  - apply (C3_update_failure 4 tree4_v1 5 7 (Some "x"%string) built_tree4_v1).
    simpl. lia.
  - apply (C3_update_failure 4 tree4_v1 (-3) 7 (Some "x"%string) built_tree4_v1).
    simpl. lia.
  - apply (C3_update_failure 4 tree4_v1 (-1) 7 (Some "x"%string) built_tree4_v1).
    simpl. lia.
Defined.

Lemma C4_counterexample :
  (add_branch tracker2 "BOS"%string (Some 100) None).2 = Ok 1 ∧
  next_idx tracker2_bos = 1 ∧
  get_all_results tracker2_bos 1 = Ok [Some 100] ∧
  (add_branch tracker2_bos "NYC"%string (Some 200) None).2 = Ok 2 ∧
  get_all_results tracker2_next 1 = Ok [Some 100; None].
Proof. by vm_compute. Qed.

Lemma C4_witness :
  tracking 2 tracker2_bos ∧ valid_version (tree tracker2_bos) 0 ∧
  ∃ xs, get_all_results tracker2_bos 0 = Ok xs ∧
        Z.of_nat (length xs) = next_idx tracker2_bos ∧
        (next_idx tracker2_bos = 0 → xs = []).
Proof.
  assert (Hv : valid_version (tree tracker2_bos) 0)
    by (unfold valid_version; simpl; lia).
  exact (conj tracking_tracker2_bos (conj Hv
           (C4_all_results_length 2 tracker2_bos 0 tracking_tracker2_bos Hv))).
Defined.

Lemma C5_counterexample :
  branch_params tracker2 = [None; None] ∧
  add_branch tracker2 "BOS"%string (Some 100) (Some 7) =
    ({| tree := tree tracker2;
        branch_params := [Some {| params := "BOS"%string; result_of := Some 100 |};
                          None];
        current_version := 0;
        next_idx := 0 |},
     Raise IndexError).
Proof. by vm_compute. Qed.

Lemma C5_witness :
  tracking 2 tracker2_fork ∧
  add_branch tracker2_fork "SFO"%string (Some 300) None
    = (tracker2_fork, Raise IndexError) ∧
  tracking 2 tracker2_bos ∧
  tree (add_branch tracker2_bos "NYC"%string (Some 200) (Some 7)).1
    = tree tracker2_bos ∧
  next_idx (add_branch tracker2_bos "NYC"%string (Some 200) (Some 7)).1
    = next_idx tracker2_bos ∧
  current_version (add_branch tracker2_bos "NYC"%string (Some 200) (Some 7)).1
    = current_version tracker2_bos ∧
  (∀ i, i ≠ Z.to_nat (next_idx tracker2_bos) →
     branch_params (add_branch tracker2_bos "NYC"%string (Some 200) (Some 7)).1 !! i
       = branch_params tracker2_bos !! i).
Proof.
  assert (Hfork : tracking 2 tracker2_fork)
    by apply tracking_add, tracking_tracker2_bos.
  split; [exact Hfork|]. split.
  { apply (C5_add_branch_failure 2 tracker2_fork "SFO"%string (Some 300) None Hfork).
    simpl. lia. }
  split; [exact tracking_tracker2_bos|].
  destruct (proj2 (C5_add_branch_failure 2 tracker2_bos "NYC"%string (Some 200)
                     (Some 7) tracking_tracker2_bos)
              (add_branch tracker2_bos "NYC"%string (Some 200) (Some 7)).1
              IndexError eq_refl)
    as (_ & Htree & Hnext & Hcur & _ & Hslots & _).
  exact (conj Htree (conj Hnext (conj Hcur Hslots))).
Defined.

Lemma C6_counterexample :
  Heap.__init__ 10 3 [] = Ok (heap3, stored3) ∧
  Heap.update 10 (heap3, stored3) 0 2 (Some "x"%string) =
    ((heap3 ++ [Heap.Cell 2 2 (Some "x"%string) None None;
                Heap.Cell 0 2 None (Some 2%nat) (Some 5%nat)],
      {| Heap.size := 3; Heap.versions := [4%nat; 6%nat] |}),
     Ok 1) ∧
  Z.log2_up 3 + 1 = 3.
Proof. by vm_compute. Qed.

Lemma C6_witness :
  Heap.stored 10 3 (heap3, stored3) ∧
  0 ≤ 0 < Z.of_nat (length (Heap.versions stored3)) ∧
  ∃ root node h_new new_root,
    Heap.versions stored3 !! Z.to_nat 0 = Some root ∧
    Heap.update 10 (heap3, stored3) 0 2 (Some "x"%string) =
      ((heap3 ++ h_new,
        {| Heap.size := Heap.size stored3;
           Heap.versions := Heap.versions stored3 ++ [new_root] |}),
       Ok (Z.of_nat (length (Heap.versions stored3)))) ∧
    repr heap3 root node ∧ length h_new = path_length node 2 ∧
    Z.log2 3 + 1 ≤ Z.of_nat (length h_new) ≤ Z.log2_up 3 + 1 ∧
    (∀ d, (length heap3 ≤ d < length heap3 + length h_new)%nat →
          Heap.reach (heap3 ++ h_new) new_root d) ∧
    (∀ d, Heap.reach (heap3 ++ h_new) new_root d →
          (length heap3 ≤ d < length heap3 + length h_new)%nat ∨
          Heap.reach heap3 root d).
Proof.
  assert (Hv : 0 ≤ 0 < Z.of_nat (length (Heap.versions stored3))) by (simpl; lia).
  exact (conj stored_heap3 (conj Hv
           (C6_sharing 10 3 heap3 stored3 0 2 (Some "x"%string) stored_heap3 Hv))).
Defined.

Lemma C7_counterexample :
  next_idx tracker2 = 0 ∧ get_branch_result tracker2 0 1 = Ok None ∧
  next_idx tracker2_bos = 1 ∧ get_branch_result tracker2_bos 1 1 = Ok None ∧
  get_branch_result tracker2_bos 1 2 = Raise IndexError.
Proof. by vm_compute. Qed.

Lemma C7_witness :
  tracking 2 tracker2_bos ∧ valid_version (tree tracker2_bos) 1 ∧
  (∃ x, get_branch_result tracker2_bos 1 0 = Ok x) ∧
  get_branch_result tracker2_bos 1 1 = Ok None ∧
  get_branch_result tracker2_bos 1 2 = Raise IndexError ∧
  get_branch_result tracker2_fork 2 (next_idx tracker2_bos) = Ok (Some 200) ∧
  get_branch_result tracker2_fork 2 0 = get_branch_result tracker2_bos 0 0 ∧
  get_branch_result tracker2_fork 1 0 = get_branch_result tracker2_bos 1 0.
Proof.
  assert (Hv : valid_version (tree tracker2_bos) 1)
    by (unfold valid_version; simpl; lia).
  split; [exact tracking_tracker2_bos|]. split; [exact Hv|].
  destruct (C7_branch_result 2 tracker2_bos 1 0 tracking_tracker2_bos Hv)
    as (Hin & _ & _ & Hstep).
  destruct (C7_branch_result 2 tracker2_bos 1 1 tracking_tracker2_bos Hv)
    as (_ & Hfree & _ & _).
  destruct (C7_branch_result 2 tracker2_bos 1 2 tracking_tracker2_bos Hv)
    as (_ & _ & Hout & _).
  destruct (Hstep "NYC"%string (Some 200) (Some 0) tracker2_fork 2 eq_refl)
    as (Hnew & Hparent & Hold).
  split; [apply Hin; lia|]. split; [apply Hfree; simpl; lia|].
  split; [apply Hout; lia|]. split; [exact Hnew|].
  split; [apply Hparent; simpl; lia|exact Hold].
Defined.

Lemma C8_counterexample :
  PersistentSegmentTree__init__ (V:=string) 1000 0 = Raise RecursionError ∧
  PersistentSegmentTree__init__ (V:=string) 1000 (-3) = Raise RecursionError.
Proof. by vm_compute. Qed.

Lemma C8_witness :
  1 ≤ 4 ∧
  (∃ depth0 : nat, ∀ depth : nat,
     ((depth0 ≤ depth)%nat →
      ∃ root : PersistentSegmentTreeNode string,
        PersistentSegmentTree__init__ depth 4
          = Ok {| size := 4; versions := [root] |} ∧
        leaves root = (λ i, (i, None)) <$> seqZ 0 4 ∧
        _query root 0 (4 - 1) = Ok (replicate (Z.to_nat 4) None)) ∧
     ((depth < depth0)%nat →
      PersistentSegmentTree__init__ (V:=string) depth 4 = Raise RecursionError)) ∧
  0 < 1 ∧
  ∀ depth, PersistentSegmentTree__init__ (V:=string) depth 0 = Raise RecursionError.
Proof.
  assert (Hfour : 1 ≤ 4) by lia. assert (Hzero : 0 < 1) by lia.
  exact (conj Hfour (conj (proj1 (C8_construction (V:=string) 4) Hfour)
           (conj Hzero (proj2 (C8_construction (V:=string) 0) Hzero)))).
Defined.

Lemma C9_witness :
  built 4 tree4_v1 ∧ valid_version tree4_v1 1 ∧
  ∃ root, versions tree4_v1 !! Z.to_nat 1 = Some root ∧
    (leaves root).*1 = seqZ 0 4 ∧
    query tree4_v1 1 (-2) 1 = Ok (filter (within (-2) 1) (leaves root)).*2 ∧
    (filter (within (-2) 1) (leaves root)).*1 = seqZ 0 2 ∧
    query tree4_v1 1 3 1 = Ok [].
Proof.
  assert (Hv : valid_version tree4_v1 1) by (unfold valid_version; simpl; lia).
  split; [exact built_tree4_v1|]. split; [exact Hv|].
  destruct (C9_query_shape 4 tree4_v1 1 built_tree4_v1 Hv)
    as (root & Hroot & Hidx & Hq).
  exists root. split; [exact Hroot|]. split; [exact Hidx|].
  destruct (Hq (-2) 1) as (Hres & Hsel & _). destruct (Hq 3 1) as (_ & _ & Hempty).
  split; [exact Hres|]. split; [exact Hsel|]. apply Hempty. lia.
Defined.

Lemma C10_witness :
  built 4 tree4_v1 ∧ valid_version tree4_v1 1 ∧
  (∃ t', update tree4_v1 1 9 (Some "Z"%string)
           = (t', Ok (Z.of_nat (length (versions tree4_v1)))) ∧
         length (versions t') = S (length (versions tree4_v1)) ∧
         query t' (Z.of_nat (length (versions tree4_v1))) (4 - 1) (4 - 1)
           = Ok [Some "Z"%string]) ∧
  (∃ t', update tree4_v1 1 (-9) (Some "Z"%string)
           = (t', Ok (Z.of_nat (length (versions tree4_v1)))) ∧
         length (versions t') = S (length (versions tree4_v1)) ∧
         query t' (Z.of_nat (length (versions tree4_v1))) 0 0
           = Ok [Some "Z"%string]).
Proof.
  assert (Hv : valid_version tree4_v1 1) by (unfold valid_version; simpl; lia).
  split; [exact built_tree4_v1|]. split; [exact Hv|]. split.
  - destruct (C10_update_clamps 4 tree4_v1 1 9 (Some "Z"%string)
                built_tree4_v1 Hv) as (t' & Hup & Hlen & Hhigh & _); [lia|].
    exists t'. split; [exact Hup|]. split; [exact Hlen|]. apply Hhigh. lia.
  - destruct (C10_update_clamps 4 tree4_v1 1 (-9) (Some "Z"%string)
                built_tree4_v1 Hv) as (t' & Hup & Hlen & _ & Hlow); [lia|].
    exists t'. split; [exact Hup|]. split; [exact Hlen|]. apply Hlow. lia.
Defined.

(** ** The further properties on concrete inputs *)

Lemma valid_tree4_v1 : valid_version tree4_v1 1.
Proof. unfold valid_version. simpl. lia. Defined.

Lemma linear_tracker2_bos : linear 2 tracker2_bos.
Proof. apply linear_add, (linear_init 2 10). reflexivity. Defined.

Lemma linear_tracker3 : linear 3 tracker3.
Proof. apply (linear_init 3 10). reflexivity. Defined.

Lemma init_heap3 : Heap.__init__ 10 3 [] = Ok (heap3, stored3).
Proof. reflexivity. Defined.

Lemma X1_witness :
  built 4 tree4_v1 ∧ valid_version tree4_v1 1 ∧
  ∃ t' xs,
    update tree4_v1 1 2 (Some "B"%string)
      = (t', Ok (Z.of_nat (length (versions tree4_v1)))) ∧
    query tree4_v1 1 0 (4 - 1) = Ok xs ∧ length xs = Z.to_nat 4 ∧
    query t' 1 0 (4 - 1) = Ok xs ∧
    query t' (Z.of_nat (length (versions tree4_v1))) 0 (4 - 1)
      = Ok (<[Z.to_nat (target 0 (4 - 1) 2) := Some "B"%string]> xs).
Proof.
  exact (conj built_tree4_v1 (conj valid_tree4_v1
           (X1_update_is_array_write 4 tree4_v1 1 2 (Some "B"%string)
              built_tree4_v1 valid_tree4_v1))).
Defined.

Lemma X2_witness :
  built 4 tree4_v1 ∧
  ∃ depth root0,
    _build depth 0 (4 - 1) = Ok root0 ∧ versions tree4_v1 !! 0%nat = Some root0 ∧
    ∀ k root, versions tree4_v1 !! k = Some root → erase root = root0.
Proof. exact (conj built_tree4_v1 (X2_shape_is_static 4 tree4_v1 built_tree4_v1)). Defined.

Lemma X3_witness :
  built 4 tree4_v1 ∧ valid_version tree4_v1 1 ∧ 0 ≤ 1 + 1 ∧ 1 ≤ 3 ∧
  ∃ xs ys, query tree4_v1 1 0 1 = Ok xs ∧ query tree4_v1 1 (1 + 1) 3 = Ok ys ∧
           query tree4_v1 1 0 3 = Ok (xs ++ ys).
Proof.
  assert (H1 : 0 ≤ 1 + 1) by lia. assert (H2 : 1 ≤ 3) by lia.
  exact (conj built_tree4_v1 (conj valid_tree4_v1 (conj H1 (conj H2
           (X3_query_concat 4 tree4_v1 1 0 1 3 built_tree4_v1 valid_tree4_v1
              H1 H2))))).
Defined.

Lemma X4_witness :
  built 4 tree4_v1 ∧ valid_version tree4_v1 1 ∧
  target 0 (4 - 1) 1 ≠ target 0 (4 - 1) 3 ∧
  query (update (update tree4_v1 1 1 (Some "x"%string)).1
                (Z.of_nat (length (versions tree4_v1))) 3 (Some "y"%string)).1
        (Z.of_nat (length (versions tree4_v1)) + 1) 0 3
  = query (update (update tree4_v1 1 3 (Some "y"%string)).1
                  (Z.of_nat (length (versions tree4_v1))) 1 (Some "x"%string)).1
          (Z.of_nat (length (versions tree4_v1)) + 1) 0 3.
Proof.
  assert (Hne : target 0 (4 - 1) 1 ≠ target 0 (4 - 1) 3) by (unfold target; lia).
  exact (conj built_tree4_v1 (conj valid_tree4_v1 (conj Hne
           (X4_updates_commute 4 tree4_v1 1 1 3 (Some "x"%string)
              (Some "y"%string) 0 3 built_tree4_v1 valid_tree4_v1 Hne)))).
Defined.

Lemma X5_witness :
  built 4 tree4_v1 ∧ valid_version tree4_v1 1 ∧
  target 0 (4 - 1) 7 = target 0 (4 - 1) 3 ∧
  query (update (update tree4_v1 1 7 (Some "x"%string)).1
                (Z.of_nat (length (versions tree4_v1))) 3 (Some "y"%string)).1
        (Z.of_nat (length (versions tree4_v1)) + 1) 0 3
  = query (update tree4_v1 1 3 (Some "y"%string)).1
          (Z.of_nat (length (versions tree4_v1))) 0 3.
Proof.
  assert (Heq : target 0 (4 - 1) 7 = target 0 (4 - 1) 3) by (unfold target; lia).
  exact (conj built_tree4_v1 (conj valid_tree4_v1 (conj Heq
           (X5_last_write_wins 4 tree4_v1 1 7 3 (Some "x"%string)
              (Some "y"%string) 0 3 built_tree4_v1 valid_tree4_v1 Heq)))).
Defined.

Lemma X6_witness :
  - Z.of_nat (length (versions tree4_v1)) ≤ -1 < 0 ∧
  query tree4_v1 (-1) 0 3
    = query tree4_v1 (-1 + Z.of_nat (length (versions tree4_v1))) 0 3 ∧
  update tree4_v1 (-1) 2 (Some "B"%string)
    = update tree4_v1 (-1 + Z.of_nat (length (versions tree4_v1))) 2
        (Some "B"%string).
Proof.
  assert (Hv : - Z.of_nat (length (versions tree4_v1)) ≤ -1 < 0) by (simpl; lia).
  exact (conj Hv (X6_negative_version tree4_v1 (-1) 2 (Some "B"%string) 0 3 Hv)).
Defined.

Lemma X7_witness :
  built 4 tree4_v1 ∧
  query tree4_v1 2 0 3 = Raise IndexError ∧
  ∃ xs, query tree4_v1 (-2) 0 3 = Ok xs.
Proof.
  split; [exact built_tree4_v1|]. split.
  - apply (X7_query_failure 4 tree4_v1 2 0 3 built_tree4_v1). simpl. lia.
  - apply (X7_query_failure 4 tree4_v1 (-2) 0 3 built_tree4_v1). simpl. lia.
Defined.

Lemma X9_witness :
  tracking 2 tracker2_bos ∧
  current_version tracker2_bos = next_idx tracker2_bos ∧
  Z.of_nat (length (versions (tree tracker2_bos))) = next_idx tracker2_bos + 1 ∧
  valid_version (tree tracker2_bos) (current_version tracker2_bos) ∧
  0 ≤ next_idx tracker2_bos ≤ 2 ∧
  Z.of_nat (length (branch_params tracker2_bos)) = 2.
Proof.
  exact (conj tracking_tracker2_bos
           (X9_tracker_invariant 2 tracker2_bos tracking_tracker2_bos)).
Defined.

Lemma X10_witness :
  tracking 2 tracker2_bos ∧
  (∃ m' new_version,
     add_branch tracker2_bos "NYC"%string (Some 200) (Some 0)
       = (m', Ok new_version)) ∧
  next_idx tracker2_fork = next_idx tracker2_bos + 1 ∧
  current_version tracker2_fork = next_idx tracker2_bos + 1.
Proof.
  split; [exact tracking_tracker2_bos|].
  destruct (X10_add_branch_success 2 tracker2_bos "NYC"%string (Some 200)
              (Some 0) tracking_tracker2_bos) as [Hiff Hthen].
  split; [apply Hiff; simpl; lia|].
  destruct (Hthen tracker2_fork 2 eq_refl) as (_ & Hcur & Hnext & _).
  exact (conj Hnext Hcur).
Defined.

Lemma X11_witness :
  tracking 2 tracker2_bos ∧
  ∃ b, branch_params tracker2_bos !! Z.to_nat 0 = Some (Some b) ∧
       get_branch_result tracker2_bos (0 + 1) 0 = Ok (result_of b).
Proof.
  split; [exact tracking_tracker2_bos|].
  destruct (X11_slots_match_tree 2 tracker2_bos tracking_tracker2_bos)
    as [Hrec _].
  apply Hrec. simpl. lia.
Defined.

Lemma X12_witness :
  linear 2 tracker2_bos ∧ 0 ≤ 0 ≤ next_idx tracker2_bos ∧
  get_all_results tracker2_bos 0
    = Ok (take (Z.to_nat 0) (recorded_results tracker2_bos)
            ++ replicate (Z.to_nat (next_idx tracker2_bos - 0)) None) ∧
  get_all_results tracker2_bos (current_version tracker2_bos)
    = Ok (recorded_results tracker2_bos).
Proof.
  assert (Hv : 0 ≤ 0 ≤ next_idx tracker2_bos) by (simpl; lia).
  exact (conj linear_tracker2_bos (conj Hv
           (X12_linear_history_results 2 tracker2_bos 0 linear_tracker2_bos Hv))).
Defined.

Lemma X13_witness :
  Heap.__init__ 10 3 [] = Ok (heap3, stored3) ∧
  ∃ new, heap3 = [] ++ new ∧ Z.of_nat (length new) = 2 * 3 - 1 ∧
         Heap.size stored3 = 3 ∧
         Heap.versions stored3 = [(length (@nil (Heap.cell string)) + length new - 1)%nat].
Proof.
  exact (conj init_heap3 (X13_build_allocates 10 3 [] heap3 stored3 init_heap3)).
Defined.

Lemma X14_witness :
  Heap.stored 10 3 (heap3, stored3) ∧
  0 ≤ 0 < Z.of_nat (length (Heap.versions (heap3, stored3).2)) ∧
  ∃ xs, Heap.query 10 (heap3, stored3) 0 1 5 = Ok xs ∧
        Z.of_nat (length xs) = 0 `max` ((3 - 1) `min` 5 - 0 `max` 1 + 1).
Proof.
  assert (Hv : 0 ≤ 0 < Z.of_nat (length (Heap.versions (heap3, stored3).2)))
    by (simpl; lia).
  exact (conj stored_heap3 (conj Hv
           (X14_heap_query_succeeds 10 3 (heap3, stored3) 0 1 5 stored_heap3 Hv))).
Defined.

Lemma X15_witness :
  Heap.__init__ 10 3 [] = Ok (heap3, stored3) ∧
  ∃ new,
    (heap_updates 10 (heap3, stored3) [(0, 2, Some "x"%string)]).1 = [] ++ new ∧
    Z.of_nat (length new)
      ≤ 2 * 3 - 1 + Z.of_nat (length [(0, 2, Some "x"%string)]) * (Z.log2_up 3 + 1) ∧
    (length (Heap.versions
               (heap_updates 10 (heap3, stored3) [(0%Z, 2%Z, Some "x"%string)]).2)
       ≤ 1 + length [(0%Z, 2%Z, Some "x"%string)])%nat.
Proof.
  exact (conj init_heap3
           (X15_heap_growth 10 3 [] (heap3, stored3) [(0, 2, Some "x"%string)]
              init_heap3)).
Defined.

Lemma X16_witness :
  collect_params ["BOS"; "PAR"]%string {[ "adults"%string := "2"%string ]}
    !! "adults"%string = Some "2"%string ∧
  collect_params ["BOS"; "PAR"]%string {[ "adults"%string := "2"%string ]}
    !! "destination"%string = ["BOS"; "PAR"]%string !! 1%nat ∧
  collect_params ["BOS"; "PAR"]%string {[ "adults"%string := "2"%string ]}
    !! "currency"%string = None.
Proof.
  split; [|split].
  - by apply (X16_collect_params ["BOS"; "PAR"]%string
                {[ "adults"%string := "2"%string ]} "adults"%string).
  - by apply (X16_collect_params ["BOS"; "PAR"]%string
                {[ "adults"%string := "2"%string ]} "destination"%string).
  - apply (X16_collect_params ["BOS"; "PAR"]%string
             {[ "adults"%string := "2"%string ]} "currency"%string); [done|].
    apply (bool_decide_unpack _). by vm_compute.
Defined.

Lemma X17_witness :
  linear 3 tracker3 ∧ next_idx tracker3 < 3 ∧
  ∃ m',
    wrapped tracker3 ["BOS"; "PAR"]%string {[ "adults"%string := "2"%string ]}
      (Ok (Some 100)) = (m', Ok (Some 100)) ∧
    next_idx m' = next_idx tracker3 + 1 ∧
    current_version m' = current_version tracker3 + 1 ∧
    branch_params m' !! Z.to_nat (next_idx tracker3)
      = Some (Some {| params := collect_params ["BOS"; "PAR"]%string
                                  {[ "adults"%string := "2"%string ]};
                      result_of := Some 100 |}) ∧
    get_all_results tracker3 (current_version tracker3)
      = Ok (recorded_results tracker3) ∧
    get_all_results m' (current_version m')
      = Ok (recorded_results tracker3 ++ [Some 100]).
Proof.
  assert (Hfree : next_idx tracker3 < 3) by (simpl; lia).
  exact (conj linear_tracker3 (conj Hfree
           (X17_wrapped_records 3 tracker3 ["BOS"; "PAR"]%string
              {[ "adults"%string := "2"%string ]} (Some 100)
              linear_tracker3 Hfree))).
Defined.

Lemma X18_witness :
  linear 2 tracker2_with_names ∧
  Forall (λ c, ∃ res, c.2 = Ok res) (two_calls ++ two_calls) ∧
  next_idx (session tracker2_with_names (two_calls ++ two_calls)).1
    = (next_idx tracker2_with_names
         + Z.of_nat (length (two_calls ++ two_calls))) `min` 2 ∧
  (session tracker2_with_names (two_calls ++ two_calls)).2 !! 1%nat
    = Some (if decide (next_idx tracker2_with_names + Z.of_nat 1 < 2)
            then Ok (Some 200) else Raise IndexError) ∧
  (session tracker2_with_names (two_calls ++ two_calls)).2 !! 2%nat
    = Some (if decide (next_idx tracker2_with_names + Z.of_nat 2 < 2)
            then Ok (Some 100) else Raise IndexError).
Proof.
  assert (Hlin : linear 2 tracker2_with_names)
    by (apply (linear_init 2 10); reflexivity).
  assert (Hall : Forall (λ c : list string * gmap string string * result (option Z),
                           ∃ res, c.2 = Ok res) (two_calls ++ two_calls)).
  { repeat (apply Forall_cons; split; [by eexists|]). apply Forall_nil_2. }
  split; [exact Hlin|]. split; [exact Hall|].
  destruct (X18_session_capacity 2 tracker2_with_names (two_calls ++ two_calls)
              Hlin Hall) as [Hnext Hout].
  split; [exact Hnext|]. split.
  - exact (Hout 1%nat [] ∅ (Some 200) eq_refl).
  - exact (Hout 2%nat ["BOS"; "PAR"]%string {[ "adults"%string := "2"%string ]}
             (Some 100) eq_refl).
Defined.

Lemma X21_witness :
  hotels_answer !! "error"%string = None ∧
  hotels_answer !! "data"%string
    = Some (Server.JArray (Server.JObject <$> hotel_entries)) ∧
  Server.tool_search_hotels_by_city Z int_truth byte_slice Server.TypeError
    (Server.Body (Server.JObject ∅)) (Server.Body (Server.JObject hotels_answer))
    (λ _, Server.RequestException "offline")
  = match filter (λ x, Server.truth Z int_truth x)
            ((λ d, default Server.JNull (d !! "hotelId"%string))
               <$> take 5 hotel_entries) with
    | [] => Server.Return (Server.JObject {[ "error"%string :=
              Server.JString "No hotels were found for the specified city." ]})
    | ids => Server.get_hotel_offers ids (Server.RequestException "offline")
    end.
Proof.
  assert (Herr : hotels_answer !! "error"%string = None) by done.
  assert (Hdata : hotels_answer !! "data"%string
                  = Some (Server.JArray (Server.JObject <$> hotel_entries)))
    by done.
  exact (conj Herr (conj Hdata
           (X21_hotel_ids int_truth byte_slice Server.TypeError ∅ hotels_answer
              hotel_entries (λ _, Server.RequestException "offline")
              Herr Hdata))).
Defined.

Lemma X8_witness :
  PersistentSegmentTree__init__ 7 4 = Ok tree4 ∧
  (1 ≤ 4 ≤ 2 ^ (Z.of_nat 7 - 3) ∧ Z.log2_up 4 + 3 ≤ Z.of_nat 7) ∧
  PersistentSegmentTree__init__ (V:=string) 2 4 = Raise RecursionError ∧
  RecursionError = RecursionError.
Proof.
  assert (Hinit : PersistentSegmentTree__init__ 7 4 = Ok tree4) by reflexivity.
  assert (Hlow : PersistentSegmentTree__init__ (V:=string) 2 4
                 = Raise RecursionError) by reflexivity.
  exact (conj Hinit (conj (proj1 (X8_construction_depth 7 4) tree4 Hinit)
           (conj Hlow (proj2 (X8_construction_depth 2 4) RecursionError Hlow)))).
Defined.

Lemma X19_witness :
  Server.get_access_token (number:=Z) (Server.Body (Server.JString "down"))
    = Server.Raise Server.AttributeError ∧
  ∃ body, Server.Body (Server.JString "down") = Server.Body body ∧
          ∀ d : gmap string (Server.json Z), body ≠ Server.JObject d.
Proof.
  split; [reflexivity|].
  by apply (proj2 (X19_access_token_shape (number:=Z)
                     (Server.Body (Server.JString "down")))
              Server.AttributeError).
Defined.

Lemma X20_witness :
  is_Some (({[ "error"%string := Server.JString "quota" ]}
              : gmap string (Server.json Z)) !! "error"%string) ∧
  Server.get_pois Z int_truth byte_slice Server.TypeError (λ _, "[]"%string)
    (Server.Body (Server.JObject ∅))
    (Server.Body (Server.JObject {[ "error"%string := Server.JString "quota" ]}))
  = Server.Raise (Server.KeyError "error").
Proof.
  assert (Herr : is_Some (({[ "error"%string := Server.JString "quota" ]}
                             : gmap string (Server.json Z)) !! "error"%string))
    by (by eexists).
  exact (conj Herr
           (proj2 (X20_get_pois_search_failure int_truth byte_slice
                     Server.TypeError (λ _, "[]"%string) ∅) _ Herr)).
Defined.
